(** * GLAM query generators of bigquery-etl: a shallow embedding

    The two generators embedded here are

    - [bigquery_etl/glam/clients_daily_histogram_aggregates.py]:
      [get_distribution_metrics] walks a table schema and collects the
      distribution metrics, [get_metrics_sql] turns that catalog into a
      list of SQL row constructors;
    - [bigquery_etl/glam/probe_counts.py]: the loop of [render_query] that
      builds [attribute_combinations].

    Python values are modelled as follows.  A [str] is a [string]; read
    as the UTF-8 encoding of the text, the bytewise order of
    [String.compare] is the code point order Python compares with.  A
    [dict] is an association list in insertion order, which is the order
    [dict.items()] iterates in.  A raised exception is the [Raise] case of
    [result], and a [for] loop over a list is [for_each], which threads
    the loop state and stops at the first exception. *)

From Stdlib Require Import List String Ascii Bool Arith Lia.
From Stdlib Require Import Permutation Sorted OrderedTypeEx.
Import ListNotations.
Local Open Scope string_scope.
Local Open Scope list_scope.

(** ** Python primitives *)

Module Py.

Inductive exn : Type :=
| KeyError (key : string).

Inductive result (A : Type) : Type :=
| Ok (a : A)
| Raise (e : exn).
Arguments Ok {A} a.
Arguments Raise {A} e.

Definition bind {A B : Type} (r : result A) (k : A -> result B) : result B :=
  match r with
  | Ok a => k a
  | Raise e => Raise e
  end.

(** [for x in xs: body], with the variables the body assigns as state. *)
Fixpoint for_each {A S : Type} (xs : list A) (body : A -> S -> result S)
  (s : S) : result S :=
  match xs with
  | [] => Ok s
  | x :: xs' => bind (body x s) (for_each xs' body)
  end.

(** [x in xs] for a tuple, list or set of strings. *)
Definition contains (xs : list string) (x : string) : bool :=
  existsb (String.eqb x) xs.

(** A dict with string keys, in insertion order. *)
Definition dict (V : Type) : Type := list (string * V).

(** [d[k]] *)
Fixpoint getitem {V : Type} (d : dict V) (k : string) : result V :=
  match d with
  | [] => Raise (KeyError k)
  | (k', v) :: d' => if String.eqb k k' then Ok v else getitem d' k
  end.

(** [d[k] = v] for a key that may or may not be there. *)
Fixpoint setitem {V : Type} (d : dict V) (k : string) (v : V) : dict V :=
  match d with
  | [] => [(k, v)]
  | (k', v') :: d' =>
      if String.eqb k k' then (k', v) :: d' else (k', v') :: setitem d' k v
  end.

(** [sep.join(parts)] *)
Definition join (sep : string) (parts : list string) : string :=
  String.concat sep parts.

(** Tuples of four strings compare as Python compares tuples: the first
    position where they differ decides. *)
Definition tuple4 : Type := string * string * string * string.

Definition tuple4_lt (a b : tuple4) : bool :=
  let '(a1, a2, a3, a4) := a in
  let '(b1, b2, b3, b4) := b in
  if negb (String.eqb a1 b1) then String.ltb a1 b1
  else if negb (String.eqb a2 b2) then String.ltb a2 b2
  else if negb (String.eqb a3 b3) then String.ltb a3 b3
  else String.ltb a4 b4.

(** [sorted(xs)]: Python's sort is stable and only ever asks [<].  A
    stable sort has one possible result, here computed by insertion:
    an element goes before the first element that is not smaller. *)
Section Sorted.
Context {A : Type} (lt : A -> A -> bool).

Fixpoint insert (x : A) (l : list A) : list A :=
  match l with
  | [] => [x]
  | y :: l' => if lt y x then y :: insert x l' else x :: y :: l'
  end.

Fixpoint sorted (l : list A) : list A :=
  match l with
  | [] => []
  | x :: l' => insert x (sorted l')
  end.
End Sorted.

End Py.
Import Py.

(** ** clients_daily_histogram_aggregates.py *)

Module Histogram.

(** A schema field: a JSON object that always has a ["name"], so that
    [f["name"]] is total, and that has a ["fields"] list on records only. *)
Local Unset Elimination Schemes.
Inductive Field : Type :=
| mkField (name : string) (fields : option (list Field)).
Local Set Elimination Schemes.

Definition name (f : Field) : string :=
  let '(mkField n _) := f in n.

(** [f["fields"]] raises [KeyError] on an object without that key. *)
Definition fields (f : Field) : result (list Field) :=
  match f with
  | mkField _ (Some fs) => Ok fs
  | mkField _ None => Raise (KeyError "fields")
  end.

Definition metric_type_set : list string :=
  [ "timing_distribution"; "memory_distribution"; "custom_distribution" ].

(** The dict comprehension iterates over a set, in an order Python does
    not fix: [iteration] is that order. *)
Definition get_distribution_metrics (iteration : list string)
  (schema : list Field) : result (dict (list string)) :=
  let metrics := map (fun metric_type => (metric_type, @nil string)) iteration in
  for_each schema (fun root_field metrics =>
    if negb (String.eqb (name root_field) "metrics") then Ok metrics
    else
      bind (fields root_field) (fun root_fields =>
      for_each root_fields (fun metric_field metrics =>
        let metric_type := name metric_field in
        if negb (contains metric_type_set metric_type) then Ok metrics
        else
          bind (fields metric_field) (fun metric_fields =>
          for_each metric_fields (fun field metrics =>
            bind (getitem metrics metric_type) (fun names =>
            Ok (setitem metrics metric_type (names ++ [name field]))))
          metrics))
      metrics))
    metrics.

Definition dquote : string := String (ascii_of_nat 34) EmptyString.

Definition item_of (metric_type name : string) : tuple4 :=
  let path := ("metrics." ++ metric_type ++ "." ++ name)%string in
  (name, metric_type, (path ++ ".sum")%string, (path ++ ".values")%string).

(** The first loop: [items]. *)
Definition get_metrics_items (metrics : dict (list string)) : list tuple4 :=
  flat_map (fun '(metric_type, metric_names) =>
              map (item_of metric_type) metric_names) metrics.

Definition render_item (it : tuple4) : string :=
  let '(name, metric_type, sum_path, value_path) := it in
  ("(" ++ dquote ++ name ++ dquote ++ ", " ++ dquote ++ metric_type ++ dquote
     ++ ", " ++ sum_path ++ ", " ++ value_path ++ ")")%string.

(** The second loop: [results]. *)
Definition get_metrics_results (metrics : dict (list string)) : list string :=
  map render_item (sorted tuple4_lt (get_metrics_items metrics)).

Definition get_metrics_sql (metrics : dict (list string)) : string :=
  join "," (get_metrics_results metrics).

End Histogram.
Import Histogram.

(** ** probe_counts.py *)

Module ProbeCounts.

(** [itertools.combinations(pool, r)], as the Python documentation
    describes it: the [r]-length subsequences of [pool], emitted in
    lexicographic order of the positions they are drawn from.  Lemmas
    [combinations_positions] and [combinations_lex_sorted] below check
    this definition against that description. *)
Fixpoint combinations {A : Type} (pool : list A) (r : nat) : list (list A) :=
  match pool, r with
  | _, 0 => [[]]
  | [], S _ => []
  | x :: pool', S r' =>
      map (cons x) (combinations pool' r') ++ combinations pool' r
  end.

(** [reversed(range(n))] *)
Definition reversed_range (n : nat) : list nat := rev (seq 0 n).

(** The innermost loop: one [(attribute, attribute in grouping)] pair per
    attribute. *)
Definition select_expr (attributes grouping : list string)
  : list (string * bool) :=
  map (fun attribute => (attribute, contains grouping attribute)) attributes.

(** The loop of [render_query] that fills [attribute_combinations]. *)
Definition attribute_combinations (attributes : list string)
  : list (list (string * bool)) :=
  let max_combinations := List.length attributes in
  flat_map (fun subset_size =>
    flat_map (fun grouping =>
      if negb (contains grouping "channel")
         || negb (contains grouping "app_version")
      then []
      else [select_expr attributes grouping])
    (combinations attributes subset_size))
  (reversed_range (max_combinations + 1)).

End ProbeCounts.
Import ProbeCounts.

(** ** Vocabulary of the statements *)

(** The order on [str] that [<] decides, and its reflexive closure. *)
Definition str_lt (a b : string) : Prop := String.ltb a b = true.
Definition str_le (a b : string) : Prop := str_lt a b \/ a = b.

(** [(name, type)] of the first tuple is lexicographically at most that of
    the second. *)
Definition name_type_le (a b : tuple4) : Prop :=
  let '(n1, t1, _, _) := a in
  let '(n2, t2, _, _) := b in
  str_lt n1 n2 \/ (n1 = n2 /\ str_le t1 t2).

Definition tuple4_eq_dec (a b : tuple4) : {a = b} + {a <> b}.
Proof. repeat decide equality. Defined.

(** How often [name] is listed under [metric_type] in a catalog. *)
Definition occurrences (metrics : dict (list string))
  (metric_type name : string) : nat :=
  list_sum (map (fun '(key, names) =>
                   if String.eqb key metric_type
                   then count_occ string_dec names name else 0) metrics).

(** How many names a catalog lists in all. *)
Definition listed (metrics : dict (list string)) : nat :=
  list_sum (map (fun entry => List.length (snd entry)) metrics).

(** The children of a field, none when it has no ["fields"]. *)
Definition children (f : Field) : list Field :=
  match f with
  | mkField _ (Some fs) => fs
  | mkField _ None => []
  end.

Definition has_fields (f : Field) : bool :=
  match f with
  | mkField _ (Some _) => true
  | mkField _ None => false
  end.

Definition is_root (f : Field) : bool := String.eqb (name f) "metrics".

Definition is_metric_type (f : Field) : bool :=
  contains metric_type_set (name f).

(** The metric-type children of the top-level fields named ["metrics"], in
    schema order. *)
Definition metric_type_fields (schema : list Field) : list Field :=
  flat_map (fun root => filter is_metric_type (children root))
           (filter is_root schema).

(** The names found under the metric-type children, in schema order: all
    of them, and those under one type. *)
Definition names_found (schema : list Field) : list string :=
  flat_map (fun f => map name (children f)) (metric_type_fields schema).

Definition names_of_type (schema : list Field) (metric_type : string)
  : list string :=
  flat_map (fun f => map name (children f))
           (filter (fun f => String.eqb (name f) metric_type)
                   (metric_type_fields schema)).

(** Every field whose ["fields"] the walker reads has that entry. *)
Definition walkable (schema : list Field) : bool :=
  forallb has_fields (filter is_root schema)
  && forallb has_fields (metric_type_fields schema).

(** The catalog of the spec's example. *)
Definition example_catalog : dict (list string) :=
  [ ("timing_distribution", ["load_time"; "render_time"]);
    ("memory_distribution", []);
    ("custom_distribution", []) ].

(** A catalog that lists one name twice under one type. *)
Definition repeated_catalog : dict (list string) :=
  [ ("timing_distribution", ["load_time"; "load_time"]) ].

(** "Deduplicated", as a property of the rendered rows: a pair listed more
    than once is rendered once. *)
Definition rendered_once (metrics : dict (list string)) : Prop :=
  forall metric_type name,
    1 < occurrences metrics metric_type name ->
    count_occ string_dec (get_metrics_results metrics)
              (render_item (item_of metric_type name)) = 1.

(** The attributes line 32 of probe_counts.py asks for. *)
Definition required : list string := [ "channel"; "app_version" ].

(** The positions of a combination whose flag is set. *)
Definition included_indices (combination : list (string * bool)) : list nat :=
  filter (fun i => snd (nth i combination (EmptyString, false)))
         (seq 0 (List.length combination)).

Fixpoint lex_lt (a b : list nat) : Prop :=
  match a, b with
  | _, [] => False
  | [], _ :: _ => True
  | x :: a', y :: b' => x < y \/ (x = y /\ lex_lt a' b')
  end.

(** Larger index tuples first; among equally long ones, lexicographically
    smaller first. *)
Definition emitted_before (a b : list nat) : Prop :=
  List.length b < List.length a \/ (List.length a = List.length b /\ lex_lt a b).

(** The subsequences of a list, with those that keep the head first. *)
Fixpoint subseqs {A : Type} (l : list A) : list (list A) :=
  match l with
  | [] => [[]]
  | x :: l' => map (cons x) (subseqs l') ++ subseqs l'
  end.

(** What the walker's loops do to the catalog when nothing raises:
    [extend] is [metrics[metric_type]] grown by some names, [walk_fields]
    the loop over the children of one root field, [walk_schema] the loop
    over the schema. *)
Fixpoint extend (metrics : dict (list string)) (metric_type : string)
  (names : list string) : dict (list string) :=
  match metrics with
  | [] => []
  | (key, listed_names) :: metrics' =>
      if String.eqb metric_type key
      then (key, listed_names ++ names) :: metrics'
      else (key, listed_names) :: extend metrics' metric_type names
  end.

Definition walk_field (metrics : dict (list string)) (f : Field)
  : dict (list string) :=
  if is_metric_type f then extend metrics (name f) (map name (children f))
  else metrics.

Definition walk_fields (fs : list Field) (metrics : dict (list string))
  : dict (list string) :=
  fold_left walk_field fs metrics.

Definition walk_root (metrics : dict (list string)) (root : Field)
  : dict (list string) :=
  if is_root root then walk_fields (children root) metrics else metrics.

Definition walk_schema (schema : list Field) (metrics : dict (list string))
  : dict (list string) :=
  fold_left walk_root schema metrics.

Definition field_walkable (f : Field) : bool :=
  negb (is_metric_type f) || has_fields f.

Definition root_walkable (root : Field) : bool :=
  negb (is_root root) || (has_fields root && forallb field_walkable (children root)).

(** The schema of the spec's example, a schema whose metric-type field has
    an empty ["fields"], and three schemas in which a field the walker
    descends into has no ["fields"]. *)
Definition example_schema : list Field :=
  [ mkField "client_info" (Some [ mkField "client_id" None ]);
    mkField "metrics"
      (Some [ mkField "timing_distribution"
                (Some [ mkField "load_time" None; mkField "render_time" None ]) ]) ].

Definition empty_fields : list Field :=
  [ mkField "metrics"
      (Some [ mkField "timing_distribution" (Some []);
              mkField "labeled_counter" None ]) ].

Definition root_without_fields : list Field := [ mkField "metrics" None ].

Definition type_without_fields : list Field :=
  [ mkField "metrics" (Some [ mkField "timing_distribution" None ]) ].

Definition partly_without_fields : list Field :=
  [ mkField "metrics"
      (Some [ mkField "timing_distribution" (Some [ mkField "load_time" None ]);
              mkField "memory_distribution" None ]) ].

(** The groupings the loops of [render_query] go through, and the test
    of line 32 on one of them. *)
Definition groupings (attributes : list string) : list (list string) :=
  flat_map (combinations attributes)
           (reversed_range (List.length attributes + 1)).

Definition has_required (grouping : list string) : bool :=
  forallb (contains grouping) required.

(** The strings at the positions [t] of [l], and the index tuples that
    [groupings] draws: the same loops, run on positions. *)
Definition pick (l : list string) (t : list nat) : list string :=
  map (fun i => nth i l EmptyString) t.

Definition index_groupings (n : nat) : list (list nat) :=
  flat_map (combinations (seq 0 n)) (reversed_range (n + 1)).

(** The order of emission: of two emitted combinations the earlier one
    includes more attributes, or as many at lexicographically smaller
    positions. *)
Definition emission_ordered (attributes : list string) : Prop :=
  forall i j earlier later,
    i < j ->
    nth_error (attribute_combinations attributes) i = Some earlier ->
    nth_error (attribute_combinations attributes) j = Some later ->
    emitted_before (included_indices earlier) (included_indices later).

(** The attributes of the two ping families, and a list that names an
    attribute twice. *)
Definition telemetry_attributes : list string :=
  [ "os"; "app_version"; "app_build_id"; "channel" ].

Definition glean_attributes : list string :=
  [ "ping_type"; "os"; "app_version"; "app_build_id"; "channel" ].

Definition repeated_attributes : list string :=
  [ "channel"; "app_version"; "app_version"; "os" ].

Definition empty_catalog (iteration : list string) : dict (list string) :=
  map (fun metric_type => (metric_type, @nil string)) iteration.

Definition keys {V : Type} (d : dict V) : list string := map fst d.

Definition values {V : Type} (d : dict V) : list V := map snd d.

(** ** More Python: [str.strip], [print] and what ends a run *)

Module PyRun.

(** The code points [str.isspace] accepts, each in UTF-8. *)
Definition whitespace : list (list nat) :=
  [ [9]; [10]; [11]; [12]; [13]; [28]; [29]; [30]; [31]; [32];
    [194; 133]; [194; 160]; [225; 154; 128];
    [226; 128; 128]; [226; 128; 129]; [226; 128; 130]; [226; 128; 131];
    [226; 128; 132]; [226; 128; 133]; [226; 128; 134]; [226; 128; 135];
    [226; 128; 136]; [226; 128; 137]; [226; 128; 138];
    [226; 128; 168]; [226; 128; 169]; [226; 128; 175];
    [226; 129; 159]; [227; 128; 128] ].

Definition bytes_of (codes : list nat) : list ascii := map ascii_of_nat codes.

(** [s] without the prefix [w], when it starts with it. *)
Fixpoint without_prefix (w s : list ascii) : option (list ascii) :=
  match w, s with
  | [], _ => Some s
  | _ :: _, [] => None
  | a :: w', b :: s' => if Ascii.eqb a b then without_prefix w' s' else None
  end.

(** [s] without its first character, when that is one of [spaces]. *)
Fixpoint without_space (spaces : list (list ascii)) (s : list ascii)
  : option (list ascii) :=
  match spaces with
  | [] => None
  | w :: spaces' =>
      match without_prefix w s with
      | Some rest => Some rest
      | None => without_space spaces' s
      end
  end.

(** Dropping leading characters of [spaces]; every step drops a byte or
    stops, so as many steps as [s] has bytes are enough
    ([lstrip_bytes_done]). *)
Fixpoint lstrip_bytes (spaces : list (list ascii)) (steps : nat)
  (s : list ascii) : list ascii :=
  match steps with
  | 0 => s
  | S steps' =>
      match without_space spaces s with
      | Some rest => lstrip_bytes spaces steps' rest
      | None => s
      end
  end.

(** [s.strip()].  The trailing characters are dropped on the reversed
    bytes, with the encodings reversed; in UTF-8 no encoding ends another
    one, so that this drops whole characters only. *)
Definition strip (s : string) : string :=
  let spaces := map bytes_of whitespace in
  let bytes := list_ascii_of_string s in
  let left := lstrip_bytes spaces (List.length bytes) bytes in
  let right :=
    rev (lstrip_bytes (map (@rev ascii) spaces) (List.length left) (rev left)) in
  string_of_list_ascii right.

(** What leaves a [main] other than its return. *)
Inductive uncaught : Type :=
| Propagated (e : exn)
| ValueError (message : string)
| SystemExit (status : nat).

(** A run of a [main]: the strings it gave to [print], in order, and the
    exception that ended it, if one did. *)
Record run : Type := mkRun {
  stdout : list string;
  ended_by : option uncaught
}.

End PyRun.
Import PyRun.

(** ** clients_daily_histogram_aggregates.py: [main] *)

Module HistogramMain.

Definition ATTRIBUTES : string :=
  join ","
    [ "client_id"; "ping_type"; "submission_date"; "os"; "app_version";
      "app_build_id"; "channel" ].

(** The parsed command line. *)
Record Namespace : Type := mkNamespace {
  no_parameterize : bool;
  source_table : string
}.

(** The keyword arguments [main] gives to [render_main]. *)
Record render_kwargs : Type := mkKwargs {
  kw_header : string;
  kw_source_table : string;
  kw_submission_date : string;
  kw_attributes : string;
  kw_histograms : string
}.

Section Main.

(** The order the set of metric types is iterated in, and the two
    collaborators: [get_schema] of [.utils], and the template of
    [render_main] with the reformatter. *)
Variable iteration : list string.
Variable get_schema : string -> list Field.
Variable render_main : render_kwargs -> string.

Definition main (args : Namespace) : run :=
  let submission_date :=
    if no_parameterize args
    then "date_sub(current_date, interval 2 day)"
    else "@submission_date" in
  let header :=
    ("-- Query generated by: "
     ++ "python3 -m bigquery_etl.glam.clients_daily_histogram_aggregates "
     ++ "--source-table " ++ source_table args
     ++ (if no_parameterize args then " --no-parameterize" else ""))%string in
  let schema := get_schema (source_table args) in
  match get_distribution_metrics iteration schema with
  | Raise e => mkRun [] (Some (Propagated e))
  | Ok distributions =>
      let metrics_sql := strip (get_metrics_sql distributions) in
      if String.eqb metrics_sql EmptyString
      then mkRun [ header; "-- Empty query: no probes found!" ]
                 (Some (SystemExit 1))
      else mkRun [ render_main
                     (mkKwargs header (source_table args) submission_date
                               ATTRIBUTES metrics_sql) ]
                 None
  end.

End Main.

End HistogramMain.

(** ** probe_counts.py: the variables, [render_query] and [main] *)

Module ProbeCountsMain.

Definition nl : string := String (ascii_of_nat 10) EmptyString.

(** A triple-quoted string of the source: every line after a line break
    and twelve spaces, then a line break and the eight spaces before the
    closing quotes. *)
Definition triple_quoted (lines : list string) : string :=
  (String.concat EmptyString
     (map (fun line => nl ++ "            " ++ line) lines)
   ++ nl ++ "        ")%string.

Definition quoted (s : string) : string := (dquote ++ s ++ dquote)%string.

Record variables : Type := mkVariables {
  attributes : list string;
  aggregate_attributes : string;
  aggregate_grouping : string;
  scalar_metric_types : string;
  boolean_metric_types : string
}.

Definition telemetry_variables : variables :=
  mkVariables
    [ "os"; "app_version"; "app_build_id"; "channel" ]
    (triple_quoted [ "metric,"; "metric_type,"; "key,"; "process" ])
    (triple_quoted
       [ "client_agg_type,"; "first_bucket,"; "last_bucket,"; "num_buckets" ])
    (triple_quoted
       [ (quoted "scalars" ++ ",")%string; quoted "keyed-scalars" ])
    (triple_quoted
       [ (quoted "boolean" ++ ",")%string; quoted "keyed-scalar-boolean" ]).

Definition glean_variables : variables :=
  mkVariables
    [ "ping_type"; "os"; "app_version"; "app_build_id"; "channel" ]
    (triple_quoted [ "metric,"; "metric_type,"; "key" ])
    (triple_quoted [ "client_agg_type,"; "agg_type" ])
    (triple_quoted
       [ (quoted "counter" ++ ",")%string; (quoted "quantity" ++ ",")%string;
         quoted "labeled_counter" ])
    (triple_quoted [ quoted "boolean" ]).

(** [--ping-type] has two choices. *)
Inductive ping_family : Type := glean | telemetry.

Definition ping_family_str (p : ping_family) : string :=
  match p with
  | glean => "glean"
  | telemetry => "telemetry"
  end.

(** The parsed command line, its attributes in the order they were
    added. *)
Record Namespace : Type := mkNamespace {
  ping_type : ping_family;
  source_table : string;
  histogram : bool
}.

(** The keyword arguments of [render_query] other than [attributes]. *)
Record query_kwargs : Type := mkKwargs {
  kw_header : string;
  kw_is_scalar : bool;
  kw_source_table : string;
  kw_aggregate_attributes : string;
  kw_aggregate_grouping : string;
  kw_scalar_metric_types : string;
  kw_boolean_metric_types : string
}.

Section Main.

(** The template's [render], which gets [attribute_combinations] and the
    keyword arguments, and the reformatter. *)
Variable render : list (list (string * bool)) -> query_kwargs -> string.
Variable reformat : string -> string.

Definition render_query (attributes : list string) (kwargs : query_kwargs)
  : string :=
  reformat (render (attribute_combinations attributes) kwargs).

Definition main (args : Namespace) : run :=
  let module_name := "bigquery_etl.glam.probe_counts" in
  let header := ("-- generated by: python3 -m " ++ module_name)%string in
  let header :=
    (header ++ " "
     ++ join " " [ ("--" ++ "ping_type" ++ " " ++ ping_family_str (ping_type args));
                   ("--" ++ "source_table" ++ " " ++ source_table args) ])%string in
  let header :=
    (header ++ (if histogram args then "--histogram" else ""))%string in
  let variables :=
    match ping_type args with
    | telemetry => telemetry_variables
    | glean => glean_variables
    end in
  match ping_type args, histogram args with
  | telemetry, true =>
      mkRun [] (Some (ValueError "histograms not supported for telemetry"))
  | _, _ =>
      mkRun [ render_query (attributes variables)
                (mkKwargs header (negb (histogram args)) (source_table args)
                   (aggregate_attributes variables)
                   (aggregate_grouping variables)
                   (scalar_metric_types variables)
                   (boolean_metric_types variables)) ]
            None
  end.

End Main.

End ProbeCountsMain.

(** A string between a left and a right parenthesis. *)
Definition parenthesised (s : string) : Prop :=
  exists body,
    list_ascii_of_string s = "("%char :: body ++ [ ")"%char ].

(** A root field with only its metric-type children, and a schema with
    only its root fields, so pruned. *)
Definition metric_types_only (root : Field) : Field :=
  match root with
  | mkField n (Some fs) => mkField n (Some (filter is_metric_type fs))
  | mkField n None => mkField n None
  end.

Definition relevant (schema : list Field) : list Field :=
  map metric_types_only (filter is_root schema).

(** Two catalogs with the same keys in the same order, joined list by
    list. *)
Definition appended (metrics metrics' : dict (list string))
  : dict (list string) :=
  map (fun entries => (fst (fst entries), snd (fst entries) ++ snd (snd entries)))
      (combine metrics metrics').

(** What [main] of clients_daily_histogram_aggregates.py computes before
    it looks at the schema. *)
Definition histogram_header (args : HistogramMain.Namespace) : string :=
  ("-- Query generated by: "
   ++ "python3 -m bigquery_etl.glam.clients_daily_histogram_aggregates "
   ++ "--source-table " ++ HistogramMain.source_table args
   ++ (if HistogramMain.no_parameterize args then " --no-parameterize" else ""))%string.

Definition histogram_submission_date (args : HistogramMain.Namespace) : string :=
  if HistogramMain.no_parameterize args
  then "date_sub(current_date, interval 2 day)"
  else "@submission_date".

(** The variables [main] of probe_counts.py chooses. *)
Definition chosen_variables (args : ProbeCountsMain.Namespace)
  : ProbeCountsMain.variables :=
  match ProbeCountsMain.ping_type args with
  | ProbeCountsMain.telemetry => ProbeCountsMain.telemetry_variables
  | ProbeCountsMain.glean => ProbeCountsMain.glean_variables
  end.

(** A field without its children, and a schema cut below the names the
    walker collects: the children of the children of every top-level
    field are made leaves. *)
Definition as_leaf (f : Field) : Field := mkField (name f) None.

Definition with_children (change : Field -> Field) (f : Field) : Field :=
  match f with
  | mkField n (Some fs) => mkField n (Some (map change fs))
  | mkField n None => mkField n None
  end.

Definition cut_below_names (schema : list Field) : list Field :=
  map (with_children (with_children as_leaf)) schema.

(** * Properties *)

Example get_metrics_sql_one :
  get_metrics_sql [("timing_distribution", ["b"; "a"])] =
  ("(" ++ dquote ++ "a" ++ dquote ++ ", " ++ dquote ++ "timing_distribution" ++ dquote
   ++ ", metrics.timing_distribution.a.sum, metrics.timing_distribution.a.values),("
   ++ dquote ++ "b" ++ dquote ++ ", " ++ dquote ++ "timing_distribution" ++ dquote
   ++ ", metrics.timing_distribution.b.sum, metrics.timing_distribution.b.values)")%string.
Proof. reflexivity. Qed.

Example get_distribution_metrics_example :
  get_distribution_metrics metric_type_set example_schema = Ok example_catalog.
Proof. reflexivity. Qed.

Example attribute_combinations_telemetry :
  attribute_combinations ["os"; "app_version"; "app_build_id"; "channel"] =
  [ [("os", true); ("app_version", true); ("app_build_id", true); ("channel", true)];
    [("os", true); ("app_version", true); ("app_build_id", false); ("channel", true)];
    [("os", false); ("app_version", true); ("app_build_id", true); ("channel", true)];
    [("os", false); ("app_version", true); ("app_build_id", false); ("channel", true)] ].
Proof. reflexivity. Qed.

(** ** Strings and tuples *)

Lemma ltb_compare a b : String.ltb a b = true <-> String.compare a b = Lt.
Proof. unfold String.ltb. destruct (String.compare a b); split; congruence. Qed.

Lemma str_lt_trans a b c : str_lt a b -> str_lt b c -> str_lt a c.
Proof.
  unfold str_lt. rewrite !ltb_compare.
  change String.compare with String_as_OT.cmp.
  rewrite !String_as_OT.cmp_lt. apply String_as_OT.lt_trans.
Qed.

Lemma str_lt_irrefl a : ~ str_lt a a.
Proof.
  unfold str_lt. rewrite ltb_compare. intros H.
  assert (E : String.compare a a = Eq) by (apply String_as_OT.cmp_eq; reflexivity).
  congruence.
Qed.

Lemma str_lt_asym a b : str_lt a b -> String.ltb b a = false.
Proof.
  intros H. destruct (String.ltb b a) eqn:E; [|reflexivity].
  exfalso. apply (str_lt_irrefl a). now apply str_lt_trans with b.
Qed.

Lemma str_not_lt a b : String.ltb b a = false -> a <> b -> str_lt a b.
Proof.
  intros H Hne. unfold str_lt. rewrite ltb_compare.
  destruct (String.compare a b) eqn:E; [| reflexivity |].
  - apply String.compare_eq_iff in E. contradiction.
  - rewrite String.compare_antisym in E.
    destruct (String.compare b a) eqn:E'; try discriminate.
    apply ltb_compare in E'. congruence.
Qed.

Lemma str_le_trans a b c : str_le a b -> str_le b c -> str_le a c.
Proof.
  intros [H1 | ->] [H2 | ->]; unfold str_le; auto.
  left. now apply str_lt_trans with b.
Qed.

Lemma name_type_le_trans a b c :
  name_type_le a b -> name_type_le b c -> name_type_le a c.
Proof.
  destruct a as [[[a1 a2] a3] a4], b as [[[b1 b2] b3] b4], c as [[[c1 c2] c3] c4].
  simpl. intros [H1 | [-> H1]] [H2 | [-> H2]]; auto.
  - left. now apply str_lt_trans with b1.
  - right. split; [reflexivity | now apply str_le_trans with b2].
Qed.

Lemma tuple4_lt_asym a b : tuple4_lt a b = true -> tuple4_lt b a = false.
Proof.
  destruct a as [[[a1 a2] a3] a4], b as [[[b1 b2] b3] b4]. simpl.
  rewrite (String.eqb_sym b1 a1), (String.eqb_sym b2 a2), (String.eqb_sym b3 a3).
  destruct (String.eqb a1 b1); simpl; [| apply str_lt_asym].
  destruct (String.eqb a2 b2); simpl; [| apply str_lt_asym].
  destruct (String.eqb a3 b3); simpl; apply str_lt_asym.
Qed.

Lemma tuple4_not_lt a b : tuple4_lt b a = false -> name_type_le a b.
Proof.
  destruct a as [[[a1 a2] a3] a4], b as [[[b1 b2] b3] b4]. simpl.
  destruct (String.eqb_spec b1 a1) as [-> | N1]; simpl.
  - destruct (String.eqb_spec b2 a2) as [-> | N2]; simpl.
    + intros _. right. split; [reflexivity | now right].
    + intros H. right. split; [reflexivity |]. left. apply str_not_lt; auto.
  - intros H. left. apply str_not_lt; auto.
Qed.

Lemma tuple4_lt_spec a b :
  tuple4_lt a b = true <->
  let '(a1, a2, a3, a4) := a in
  let '(b1, b2, b3, b4) := b in
  str_lt a1 b1 \/
  (a1 = b1 /\ (str_lt a2 b2 \/
    (a2 = b2 /\ (str_lt a3 b3 \/ (a3 = b3 /\ str_lt a4 b4))))).
Proof.
  destruct a as [[[a1 a2] a3] a4], b as [[[b1 b2] b3] b4]. unfold str_lt. simpl.
  destruct (String.eqb_spec a1 b1) as [-> | N1]; simpl.
  - destruct (String.eqb_spec a2 b2) as [-> | N2]; simpl.
    + destruct (String.eqb_spec a3 b3) as [-> | N3]; simpl.
      * pose proof (str_lt_irrefl b1). pose proof (str_lt_irrefl b2).
        pose proof (str_lt_irrefl b3). unfold str_lt in *. tauto.
      * pose proof (str_lt_irrefl b1). pose proof (str_lt_irrefl b2).
        unfold str_lt in *. tauto.
    + pose proof (str_lt_irrefl b1). unfold str_lt in *. tauto.
  - tauto.
Qed.

Lemma tuple4_lt_trans a b c :
  tuple4_lt a b = true -> tuple4_lt b c = true -> tuple4_lt a c = true.
Proof.
  rewrite !tuple4_lt_spec.
  destruct a as [[[a1 a2] a3] a4], b as [[[b1 b2] b3] b4], c as [[[c1 c2] c3] c4].
  intros [H1 | [-> [H1 | [-> [H1 | [-> H1]]]]]]
         [H2 | [-> [H2 | [-> [H2 | [-> H2]]]]]];
    eauto 9 using str_lt_trans.
Qed.

Lemma tuple4_trichotomy a b :
  tuple4_lt b a = false -> a = b \/ tuple4_lt a b = true.
Proof.
  intros H. rewrite tuple4_lt_spec.
  destruct a as [[[a1 a2] a3] a4], b as [[[b1 b2] b3] b4]. simpl in H.
  destruct (String.eqb_spec b1 a1) as [-> | N1]; simpl in H;
    [| right; left; apply str_not_lt; auto].
  destruct (String.eqb_spec b2 a2) as [-> | N2]; simpl in H;
    [| right; right; split; [reflexivity |]; left; apply str_not_lt; auto].
  destruct (String.eqb_spec b3 a3) as [-> | N3]; simpl in H;
    [| right; right; split; [reflexivity |]; right; split; [reflexivity |];
       left; apply str_not_lt; auto].
  destruct (String.eqb_spec b4 a4) as [-> | N4]; [now left |].
  right. right. split; [reflexivity |]. right. split; [reflexivity |].
  right. split; [reflexivity |]. apply str_not_lt; auto.
Qed.

(** ** [sorted] *)

Section SortedFacts.
Context {A : Type} (lt : A -> A -> bool).
Hypothesis lt_asym : forall a b, lt a b = true -> lt b a = false.

Let not_after (a b : A) : Prop := lt b a = false.

Lemma insert_perm x l : Permutation (insert lt x l) (x :: l).
Proof.
  induction l as [| y l IH]; simpl; [reflexivity |].
  destruct (lt y x); [| reflexivity].
  rewrite IH. apply perm_swap.
Qed.

Lemma sorted_perm l : Permutation (sorted lt l) l.
Proof.
  induction l as [| x l IH]; simpl; [reflexivity |].
  rewrite insert_perm. now apply perm_skip.
Qed.

Lemma insert_locally x l : Sorted not_after l -> Sorted not_after (insert lt x l).
Proof.
  induction l as [| y l IH]; simpl; intros Hs.
  - repeat constructor.
  - destruct (lt y x) eqn:E.
    + apply Sorted_inv in Hs as [Hs Hd]. constructor; [now apply IH |].
      destruct l as [| z l]; simpl.
      * constructor. now apply lt_asym.
      * destruct (lt z x); constructor.
        -- now apply HdRel_inv in Hd.
        -- now apply lt_asym.
    + constructor; [assumption |]. constructor. exact E.
Qed.

Lemma sorted_locally l : Sorted not_after (sorted lt l).
Proof.
  induction l as [| x l IH]; simpl; [constructor | now apply insert_locally].
Qed.
End SortedFacts.

(** Under a strict total order the sorted list is the only ordered
    arrangement, so [sorted] does not depend on the order of its input. *)
Section SortedUnique.
Context {A : Type} (lt : A -> A -> bool).
Hypothesis lt_asym : forall a b, lt a b = true -> lt b a = false.
Hypothesis lt_trans : forall a b c, lt a b = true -> lt b c = true -> lt a c = true.
Hypothesis lt_total : forall a b, lt b a = false -> a = b \/ lt a b = true.

Let not_after (a b : A) : Prop := lt b a = false.

Lemma not_after_trans a b c : not_after a b -> not_after b c -> not_after a c.
Proof.
  unfold not_after. intros H1 H2.
  destruct (lt_total a b H1) as [-> | L1]; [assumption |].
  destruct (lt_total b c H2) as [<- | L2]; [assumption |].
  apply lt_asym. now apply lt_trans with b.
Qed.

Lemma sorted_strongly l : StronglySorted not_after (sorted lt l).
Proof.
  apply Sorted_StronglySorted.
  - intros a b c. apply not_after_trans.
  - now apply sorted_locally.
Qed.

Lemma ordered_unique l1 :
  forall l2,
    StronglySorted not_after l1 -> StronglySorted not_after l2 ->
    Permutation l1 l2 -> l1 = l2.
Proof.
  induction l1 as [| x l1 IH]; intros l2 H1 H2 P.
  - apply Permutation_nil in P. now subst.
  - destruct l2 as [| y l2];
      [apply Permutation_sym, Permutation_nil in P; discriminate |].
    apply StronglySorted_inv in H1 as [H1 F1].
    apply StronglySorted_inv in H2 as [H2 F2].
    rewrite Forall_forall in F1, F2.
    assert (E : x = y).
    { assert (Hx : In x (y :: l2)) by (apply (Permutation_in _ P); now left).
      assert (Hy : In y (x :: l1))
        by (apply (Permutation_in _ (Permutation_sym P)); now left).
      destruct Hx as [Hx | Hx]; [now subst |].
      destruct Hy as [Hy | Hy]; [now subst |].
      pose proof (F1 y Hy) as Lxy. pose proof (F2 x Hx) as Lyx.
      unfold not_after in *.
      destruct (lt_total x y Lxy) as [-> | L]; [reflexivity | congruence]. }
    subst y. f_equal. apply IH; auto. now apply Permutation_cons_inv in P.
Qed.

Lemma sorted_permutation l l' :
  Permutation l l' -> sorted lt l = sorted lt l'.
Proof.
  intros P. apply ordered_unique; try apply sorted_strongly.
  rewrite !sorted_perm. exact P.
Qed.
End SortedUnique.

Lemma StronglySorted_nth_error {A : Type} (R : A -> A -> Prop) l :
  StronglySorted R l ->
  forall i j a b, i < j ->
    nth_error l i = Some a -> nth_error l j = Some b -> R a b.
Proof.
  induction 1 as [| x l Hs IH Hall]; intros i j a b Hij Ha Hb.
  - destruct i; discriminate.
  - destruct j as [| j]; [lia |]. simpl in Hb.
    destruct i as [| i]; simpl in Ha.
    + injection Ha as <-. rewrite Forall_forall in Hall.
      apply Hall. eapply nth_error_In; eassumption.
    + apply (IH i j); auto. lia.
Qed.

(** ** [get_metrics_sql] *)

Lemma sorted_items_perm metrics :
  Permutation (sorted tuple4_lt (get_metrics_items metrics))
              (get_metrics_items metrics).
Proof. apply sorted_perm. Qed.

Lemma sorted_items_ordered metrics :
  StronglySorted name_type_le (sorted tuple4_lt (get_metrics_items metrics)).
Proof.
  apply Sorted_StronglySorted.
  - intros a b c. apply name_type_le_trans.
  - generalize (sorted_locally tuple4_lt tuple4_lt_asym (get_metrics_items metrics)).
    generalize (sorted tuple4_lt (get_metrics_items metrics)).
    induction 1 as [| x l Hs IH Hd]; constructor; auto.
    destruct Hd; constructor. now apply tuple4_not_lt.
Qed.

Lemma item_of_inj t n t' n' : item_of t n = item_of t' n' -> t = t' /\ n = n'.
Proof. unfold item_of. intros H. injection H. auto. Qed.

Lemma count_occ_item_of key names metric_type name :
  count_occ tuple4_eq_dec (map (item_of key) names) (item_of metric_type name) =
  if String.eqb key metric_type then count_occ string_dec names name else 0.
Proof.
  induction names as [| x names IH].
  - simpl. now destruct (String.eqb key metric_type).
  - rewrite map_cons.
    destruct (tuple4_eq_dec (item_of key x) (item_of metric_type name)) as [E | N].
    + rewrite (count_occ_cons_eq _ _ E), IH.
      apply item_of_inj in E as [-> ->].
      now rewrite String.eqb_refl, count_occ_cons_eq.
    + rewrite (count_occ_cons_neq _ _ N), IH.
      destruct (String.eqb_spec key metric_type) as [-> | Hk]; auto.
      rewrite count_occ_cons_neq; [reflexivity |]. now intros ->.
Qed.

Lemma count_occ_items metrics metric_type name :
  count_occ tuple4_eq_dec (get_metrics_items metrics) (item_of metric_type name) =
  occurrences metrics metric_type name.
Proof.
  unfold get_metrics_items, occurrences.
  induction metrics as [| [key names] metrics IH]; [reflexivity |].
  cbn [flat_map map list_sum].
  now rewrite count_occ_app, count_occ_item_of, IH.
Qed.

Lemma length_items metrics :
  List.length (get_metrics_items metrics) = listed metrics.
Proof.
  unfold get_metrics_items, listed.
  induction metrics as [| [key names] metrics IH]; simpl; [reflexivity |].
  now rewrite length_app, length_map, IH.
Qed.

Lemma items_all_empty metrics :
  Forall (fun entry => snd entry = []) metrics -> get_metrics_items metrics = [].
Proof.
  induction 1 as [| [key names] metrics Hx _ IH]; simpl in *; [reflexivity |].
  now subst names.
Qed.

(** C7: on the catalog of the example, [get_metrics_sql] returns the two
    row constructors of [load_time] and [render_time], in that order,
    joined by one comma; name and type are between double quotes
    ([dquote] is the character 34), the two paths are bare. *)
Theorem get_metrics_sql_example :
  get_metrics_sql example_catalog =
  ("(" ++ dquote ++ "load_time" ++ dquote ++ ", "
       ++ dquote ++ "timing_distribution" ++ dquote
       ++ ", metrics.timing_distribution.load_time.sum"
       ++ ", metrics.timing_distribution.load_time.values)"
   ++ ","
   ++ "(" ++ dquote ++ "render_time" ++ dquote ++ ", "
       ++ dquote ++ "timing_distribution" ++ dquote
       ++ ", metrics.timing_distribution.render_time.sum"
       ++ ", metrics.timing_distribution.render_time.values)")%string.
Proof. reflexivity. Qed.

(** C9: a catalog that yields no tuple, as every catalog whose lists are
    all empty does ([items_all_empty]), is rendered as the empty string. *)
Theorem get_metrics_sql_no_items :
  forall metrics,
    get_metrics_items metrics = [] -> get_metrics_sql metrics = EmptyString.
Proof.
  intros metrics H. unfold get_metrics_sql, get_metrics_results.
  rewrite H. reflexivity.
Qed.

Lemma get_metrics_sql_no_items_witness :
  get_metrics_sql
    [ ("timing_distribution", []); ("memory_distribution", []);
      ("custom_distribution", []) ] = EmptyString.
Proof.
  apply get_metrics_sql_no_items.
  apply items_all_empty. repeat constructor.
Defined.

(** C6: the fragment that [get_metrics_sql] returns is the comma-joined
    renderings of the collected tuples in an order in which, of any two,
    the one that comes earlier has the smaller or equal [(name, type)]
    pair, whatever the order of the catalog. *)
Theorem get_metrics_sql_rows_ordered :
  forall metrics,
    exists tuples,
      get_metrics_sql metrics = join "," (map render_item tuples) /\
      Permutation tuples (get_metrics_items metrics) /\
      (forall i j a b,
          i < j ->
          nth_error tuples i = Some a ->
          nth_error tuples j = Some b ->
          name_type_le a b).
Proof.
  intros metrics. exists (sorted tuple4_lt (get_metrics_items metrics)).
  split; [reflexivity | split].
  - apply sorted_items_perm.
  - intros i j a b Hij Ha Hb.
    exact (StronglySorted_nth_error _ _ (sorted_items_ordered metrics)
             i j a b Hij Ha Hb).
Qed.

Lemma get_metrics_sql_rows_ordered_witness :
  exists tuples,
    get_metrics_sql [ ("timing_distribution", ["render_time"; "load_time"]) ]
      = join "," (map render_item tuples) /\
    Permutation tuples
      (get_metrics_items [ ("timing_distribution", ["render_time"; "load_time"]) ]) /\
    (forall i j a b,
        i < j ->
        nth_error tuples i = Some a ->
        nth_error tuples j = Some b ->
        name_type_le a b).
Proof.
  exact (get_metrics_sql_rows_ordered
           [ ("timing_distribution", ["render_time"; "load_time"]) ]).
Defined.

(** C2, as the code has it: the fragment that [get_metrics_sql] returns
    is sorted but not deduplicated.  It is the comma-joined renderings of
    tuples in [(name, type)] order, among which every tuple comes as often
    as its name is listed under its type, one row per listed name. *)
Theorem get_metrics_sql_keeps_repetitions :
  forall metrics,
    exists tuples,
      get_metrics_sql metrics = join "," (map render_item tuples) /\
      StronglySorted name_type_le tuples /\
      (forall metric_type name,
          count_occ tuple4_eq_dec tuples (item_of metric_type name)
          = occurrences metrics metric_type name) /\
      List.length (map render_item tuples) = listed metrics.
Proof.
  intros metrics. exists (sorted tuple4_lt (get_metrics_items metrics)).
  split; [reflexivity | split; [| split]].
  - apply sorted_items_ordered.
  - intros metric_type name. rewrite <- count_occ_items.
    apply Permutation_count_occ, sorted_items_perm.
  - now rewrite length_map, (Permutation_length (sorted_items_perm metrics)),
      length_items.
Qed.

(** C2 fails as stated: a name listed twice under a type is rendered
    twice, and the fragment is its row, a comma and its row again. *)
Lemma get_metrics_sql_not_deduplicated :
  occurrences repeated_catalog "timing_distribution" "load_time" = 2 /\
  get_metrics_results repeated_catalog =
    [ render_item (item_of "timing_distribution" "load_time");
      render_item (item_of "timing_distribution" "load_time") ] /\
  ~ rendered_once repeated_catalog /\
  get_metrics_sql repeated_catalog =
    (render_item (item_of "timing_distribution" "load_time") ++ ","
     ++ render_item (item_of "timing_distribution" "load_time"))%string.
Proof.
  split; [reflexivity | split; [reflexivity | split; [| reflexivity]]].
  intros H. specialize (H "timing_distribution" "load_time").
  assert (L : 1 < occurrences repeated_catalog "timing_distribution" "load_time")
    by (vm_compute; lia).
  apply H in L. vm_compute in L. discriminate.
Qed.

(** ** [for] loops *)

Section ForEach.
Context {A S : Type} (body : A -> S -> result S).
Context (Inv : S -> Prop) (good : A -> bool) (step : S -> A -> S) (e : exn).
Hypothesis body_good :
  forall x s, Inv s -> good x = true -> body x s = Ok (step s x) /\ Inv (step s x).
Hypothesis body_bad :
  forall x s, Inv s -> good x = false -> body x s = Raise e.

(** A loop whose body either updates the state or raises [e] runs to
    the end exactly when no element makes the body raise. *)
Lemma for_each_cases xs :
  forall s, Inv s ->
    for_each xs body s =
    if forallb good xs then Ok (fold_left step xs s) else Raise e.
Proof.
  induction xs as [| x xs IH]; intros s Hs; simpl; [reflexivity |].
  destruct (good x) eqn:G; simpl.
  - destruct (body_good x s Hs G) as [-> Hs']. simpl. now apply IH.
  - now rewrite (body_bad x s Hs G).
Qed.

Lemma for_each_invariant xs :
  forall s, Inv s -> forallb good xs = true -> Inv (fold_left step xs s).
Proof.
  induction xs as [| x xs IH]; intros s Hs; simpl; [auto |].
  intros G. apply andb_prop in G as [G Gs].
  apply IH; [| assumption]. now apply body_good.
Qed.
End ForEach.

(** ** Catalogs *)

Lemma contains_In xs x : contains xs x = true <-> In x xs.
Proof.
  unfold contains. rewrite existsb_exists. split.
  - intros [y [Hy E]]. apply String.eqb_eq in E. now subst.
  - intros H. exists x. split; [assumption | apply String.eqb_refl].
Qed.

Lemma keys_extend metrics metric_type names :
  keys (extend metrics metric_type names) = keys metrics.
Proof.
  unfold keys. induction metrics as [| [key v] metrics IH]; simpl; [reflexivity |].
  destruct (String.eqb metric_type key); simpl; [reflexivity | now rewrite IH].
Qed.

Lemma extend_nil metrics metric_type : extend metrics metric_type [] = metrics.
Proof.
  induction metrics as [| [key v] metrics IH]; simpl; [reflexivity |].
  destruct (String.eqb metric_type key); [now rewrite app_nil_r | now rewrite IH].
Qed.

Lemma extend_extend metrics metric_type names names' :
  extend (extend metrics metric_type names) metric_type names' =
  extend metrics metric_type (names ++ names').
Proof.
  induction metrics as [| [key v] metrics IH]; simpl; [reflexivity |].
  destruct (String.eqb metric_type key) eqn:E; simpl; rewrite E.
  - now rewrite app_assoc.
  - now rewrite IH.
Qed.

(** [metrics[metric_type].append(name)] on a key that is there. *)
Lemma append_extend metrics metric_type :
  In metric_type (keys metrics) ->
  exists listed_names,
    getitem metrics metric_type = Ok listed_names /\
    forall names,
      setitem metrics metric_type (listed_names ++ names) =
      extend metrics metric_type names.
Proof.
  unfold keys. induction metrics as [| [key v] metrics IH]; simpl; [tauto |].
  intros H. destruct (String.eqb_spec metric_type key) as [-> | N].
  - exists v. split; reflexivity.
  - destruct H as [H | H]; [congruence |].
    destruct (IH H) as [w [Hw Hset]]. exists w. split; [assumption |].
    intros names. now rewrite Hset.
Qed.

Lemma getitem_extend metrics key listed_names metric_type names :
  getitem metrics key = Ok listed_names ->
  getitem (extend metrics metric_type names) key =
  Ok (if String.eqb key metric_type then listed_names ++ names else listed_names).
Proof.
  induction metrics as [| [k v] metrics IH]; simpl; [discriminate |].
  destruct (String.eqb_spec metric_type k) as [-> | N]; simpl.
  - destruct (String.eqb_spec key k) as [-> | N']; [| auto].
    intros H. injection H as ->. reflexivity.
  - destruct (String.eqb_spec key k) as [-> | N'].
    + intros H. injection H as ->.
      destruct (String.eqb_spec k metric_type); [congruence | reflexivity].
    + apply IH.
Qed.

Lemma values_extend metrics metric_type names :
  In metric_type (keys metrics) ->
  Permutation (List.concat (values (extend metrics metric_type names)))
              (List.concat (values metrics) ++ names).
Proof.
  unfold keys, values.
  induction metrics as [| [key v] metrics IH]; simpl; [tauto |].
  intros H. destruct (String.eqb_spec metric_type key) as [-> | N]; simpl.
  - rewrite <- !app_assoc. apply Permutation_app_head, Permutation_app_comm.
  - destruct H as [H | H]; [congruence |].
    rewrite (IH H). now rewrite app_assoc.
Qed.

(** ** [get_distribution_metrics] *)

(** The innermost loop appends the names of the fields it visits. *)
Lemma walk_names metric_type fs metrics :
  In metric_type (keys metrics) ->
  for_each fs
    (fun field metrics =>
       bind (getitem metrics metric_type) (fun names =>
       Ok (setitem metrics metric_type (names ++ [name field]))))
    metrics
  = Ok (extend metrics metric_type (map name fs)).
Proof.
  revert metrics. induction fs as [| f fs IH]; intros metrics Hk; simpl.
  - now rewrite extend_nil.
  - destruct (append_extend metrics metric_type Hk) as [v [-> Hset]]. simpl.
    rewrite Hset, IH by now rewrite keys_extend.
    now rewrite extend_extend.
Qed.

(** The loop over the children of a root field. *)
Lemma walk_fields_cases fs metrics :
  incl metric_type_set (keys metrics) ->
  for_each fs
    (fun metric_field metrics =>
       let metric_type := name metric_field in
       if negb (contains metric_type_set metric_type) then Ok metrics
       else
         bind (fields metric_field) (fun metric_fields =>
         for_each metric_fields (fun field metrics =>
           bind (getitem metrics metric_type) (fun names =>
           Ok (setitem metrics metric_type (names ++ [name field]))))
         metrics))
    metrics
  = if forallb field_walkable fs then Ok (walk_fields fs metrics)
    else Raise (KeyError "fields").
Proof.
  apply (for_each_cases _ (fun d => incl metric_type_set (keys d))).
  - intros f d Hd G. unfold field_walkable, walk_field, is_metric_type in *.
    destruct (contains metric_type_set (name f)) eqn:C; simpl in *; [| auto].
    destruct f as [n [fs' |]]; simpl in *; [| discriminate].
    rewrite walk_names by now apply Hd, contains_In.
    split; [reflexivity | now rewrite keys_extend].
  - intros f d Hd G. unfold field_walkable, is_metric_type in *.
    destruct (contains metric_type_set (name f)); simpl in *; [| discriminate].
    destruct f as [n [fs' |]]; simpl in *; [discriminate | reflexivity].
Qed.

Lemma keys_walk_fields fs metrics : keys (walk_fields fs metrics) = keys metrics.
Proof.
  revert metrics. unfold walk_fields.
  induction fs as [| f fs IH]; intros metrics; simpl; [reflexivity |].
  rewrite IH. unfold walk_field.
  destruct (is_metric_type f); [apply keys_extend | reflexivity].
Qed.

Lemma keys_walk_schema schema metrics :
  keys (walk_schema schema metrics) = keys metrics.
Proof.
  revert metrics. unfold walk_schema.
  induction schema as [| root schema IH]; intros metrics; simpl; [reflexivity |].
  rewrite IH. unfold walk_root.
  destruct (is_root root); [apply keys_walk_fields | reflexivity].
Qed.

(** The loop over the schema. *)
Lemma walk_schema_cases schema metrics :
  incl metric_type_set (keys metrics) ->
  for_each schema
    (fun root_field metrics =>
       if negb (String.eqb (name root_field) "metrics") then Ok metrics
       else
         bind (fields root_field) (fun root_fields =>
         for_each root_fields (fun metric_field metrics =>
           let metric_type := name metric_field in
           if negb (contains metric_type_set metric_type) then Ok metrics
           else
             bind (fields metric_field) (fun metric_fields =>
             for_each metric_fields (fun field metrics =>
               bind (getitem metrics metric_type) (fun names =>
               Ok (setitem metrics metric_type (names ++ [name field]))))
             metrics))
         metrics))
    metrics
  = if forallb root_walkable schema then Ok (walk_schema schema metrics)
    else Raise (KeyError "fields").
Proof.
  apply (for_each_cases _ (fun d => incl metric_type_set (keys d))).
  - intros root d Hd G. unfold root_walkable, walk_root, is_root in *.
    destruct root as [n [fs |]];
      cbn [name fields bind children has_fields] in *;
      destruct (String.eqb n "metrics"); cbn [negb orb andb] in *;
      try discriminate; auto.
    pose proof (walk_fields_cases fs d Hd) as W. cbv zeta in W.
    rewrite W, G.
    split; [reflexivity | now rewrite keys_walk_fields].
  - intros root d Hd G. unfold root_walkable, is_root in *.
    destruct root as [n [fs |]];
      cbn [name fields bind children has_fields] in *;
      destruct (String.eqb n "metrics"); cbn [negb orb andb] in *;
      try discriminate; auto.
    pose proof (walk_fields_cases fs d Hd) as W. cbv zeta in W.
    now rewrite W, G.
Qed.

Lemma field_walkable_fields fs :
  forallb field_walkable fs = forallb has_fields (filter is_metric_type fs).
Proof.
  induction fs as [| f fs IH]; simpl; [reflexivity |].
  unfold field_walkable at 1. destruct (is_metric_type f); simpl; now rewrite IH.
Qed.

Lemma root_walkable_schema schema :
  forallb root_walkable schema = walkable schema.
Proof.
  unfold walkable, metric_type_fields.
  induction schema as [| root schema IH]; simpl; [reflexivity |].
  rewrite IH. unfold root_walkable. destruct (is_root root); simpl; [| reflexivity].
  rewrite forallb_app, field_walkable_fields.
  destruct (has_fields root), (forallb has_fields (filter is_metric_type (children root))),
    (forallb has_fields (filter is_root schema)); reflexivity.
Qed.

Lemma keys_empty_catalog iteration : keys (empty_catalog iteration) = iteration.
Proof.
  unfold keys, empty_catalog. rewrite map_map. simpl. apply map_id.
Qed.

(** The walker as a whole: it raises [KeyError] exactly on a schema that
    is not [walkable], and otherwise returns what the loops built. *)
Lemma walker_result iteration schema :
  incl metric_type_set iteration ->
  get_distribution_metrics iteration schema =
  if walkable schema then Ok (walk_schema schema (empty_catalog iteration))
  else Raise (KeyError "fields").
Proof.
  intros H. unfold get_distribution_metrics. fold (empty_catalog iteration).
  rewrite walk_schema_cases, root_walkable_schema; [reflexivity |].
  now rewrite keys_empty_catalog.
Qed.

Lemma getitem_walk_fields fs :
  forall metrics key listed_names,
    getitem metrics key = Ok listed_names ->
    getitem (walk_fields fs metrics) key =
    Ok (listed_names ++
        flat_map (fun f => map name (children f))
          (filter (fun f => String.eqb (name f) key) (filter is_metric_type fs))).
Proof.
  unfold walk_fields.
  induction fs as [| f fs IH]; intros metrics key v Hv; simpl.
  - now rewrite app_nil_r.
  - unfold walk_field at 2. destruct (is_metric_type f); simpl; [| now apply IH].
    rewrite (IH _ key _ (getitem_extend _ _ _ (name f) (map name (children f)) Hv)).
    rewrite (String.eqb_sym (name f) key).
    destruct (String.eqb key (name f)); simpl; [now rewrite app_assoc | reflexivity].
Qed.

Lemma getitem_walk_schema schema :
  forall metrics key listed_names,
    getitem metrics key = Ok listed_names ->
    getitem (walk_schema schema metrics) key =
    Ok (listed_names ++ names_of_type schema key).
Proof.
  unfold walk_schema, names_of_type, metric_type_fields.
  induction schema as [| root schema IH]; intros metrics key v Hv; simpl.
  - now rewrite app_nil_r.
  - unfold walk_root at 2. destruct (is_root root); simpl; [| now apply IH].
    rewrite (IH _ key _ (getitem_walk_fields (children root) _ _ _ Hv)).
    now rewrite filter_app, flat_map_app, app_assoc.
Qed.

Lemma values_walk_fields fs :
  forall metrics,
    incl metric_type_set (keys metrics) ->
    Permutation (List.concat (values (walk_fields fs metrics)))
                (List.concat (values metrics) ++
                 flat_map (fun f => map name (children f)) (filter is_metric_type fs)).
Proof.
  unfold walk_fields.
  induction fs as [| f fs IH]; intros metrics Hk; simpl.
  - now rewrite app_nil_r.
  - unfold walk_field at 2. destruct (is_metric_type f) eqn:M; simpl; [| now apply IH].
    rewrite IH by now rewrite keys_extend.
    rewrite values_extend by now apply Hk, contains_In.
    now rewrite app_assoc.
Qed.

Lemma values_walk_schema schema :
  forall metrics,
    incl metric_type_set (keys metrics) ->
    Permutation (List.concat (values (walk_schema schema metrics)))
                (List.concat (values metrics) ++ names_found schema).
Proof.
  unfold walk_schema, names_found, metric_type_fields.
  induction schema as [| root schema IH]; intros metrics Hk; simpl.
  - now rewrite app_nil_r.
  - unfold walk_root at 2. destruct (is_root root); simpl; [| now apply IH].
    rewrite IH by now rewrite keys_walk_fields.
    rewrite values_walk_fields by assumption.
    now rewrite flat_map_app, app_assoc.
Qed.

Lemma getitem_empty_catalog iteration key :
  In key iteration -> getitem (empty_catalog iteration) key = Ok [].
Proof.
  unfold empty_catalog. induction iteration as [| k iteration IH]; simpl; [tauto |].
  intros [-> | H].
  - now rewrite String.eqb_refl.
  - destruct (String.eqb key k); [reflexivity | auto].
Qed.

Lemma values_empty_catalog iteration :
  Forall (fun names => names = []) (values (empty_catalog iteration)).
Proof.
  unfold values, empty_catalog. rewrite map_map. simpl.
  apply Forall_forall. intros v Hv. apply in_map_iff in Hv as [k [<- _]]. reflexivity.
Qed.

Lemma concat_all_nil {A : Type} (ls : list (list A)) :
  Forall (fun l => l = []) ls -> List.concat ls = [].
Proof. induction 1 as [| l ls -> _ IH]; simpl; auto. Qed.

Lemma metric_types_iterated iteration :
  Permutation iteration metric_type_set -> incl metric_type_set iteration.
Proof.
  intros P t Ht. apply Permutation_sym in P. now apply (Permutation_in _ P).
Qed.

Lemma no_root_filter schema :
  (forall f, In f schema -> name f <> "metrics") -> filter is_root schema = [].
Proof.
  induction schema as [| f schema IH]; intros H; simpl; [reflexivity |].
  unfold is_root at 1. destruct (String.eqb_spec (name f) "metrics") as [E | _].
  - exfalso. apply (H f); [now left | assumption].
  - apply IH. intros g Hg. apply H. now right.
Qed.

Lemma walk_schema_no_root schema metrics :
  filter is_root schema = [] -> walk_schema schema metrics = metrics.
Proof.
  unfold walk_schema. revert metrics.
  induction schema as [| f schema IH]; intros metrics; simpl; [reflexivity |].
  unfold walk_root at 2. destruct (is_root f); [discriminate | apply IH].
Qed.

(** C8: on a schema without a top-level field named ["metrics"] the walker
    returns a catalog that has every metric type as a key and only empty
    lists as values. *)
Theorem walker_without_root :
  forall iteration schema,
    Permutation iteration metric_type_set ->
    (forall f, In f schema -> name f <> "metrics") ->
    exists metrics,
      get_distribution_metrics iteration schema = Ok metrics /\
      (forall metric_type,
          In metric_type metric_type_set -> getitem metrics metric_type = Ok []) /\
      Forall (fun names => names = []) (values metrics).
Proof.
  intros iteration schema P H.
  pose proof (metric_types_iterated iteration P) as I.
  pose proof (no_root_filter schema H) as F.
  exists (empty_catalog iteration). split; [| split].
  - rewrite (walker_result iteration schema I).
    unfold walkable, metric_type_fields. rewrite F. simpl.
    now rewrite (walk_schema_no_root schema _ F).
  - intros t Ht. apply getitem_empty_catalog. now apply I.
  - apply values_empty_catalog.
Qed.

Lemma walker_without_root_witness :
  exists metrics,
    get_distribution_metrics metric_type_set
      [ mkField "client_info" (Some [ mkField "client_id" None ]);
        mkField "submission_timestamp" None ] = Ok metrics /\
    (forall metric_type,
        In metric_type metric_type_set -> getitem metrics metric_type = Ok []) /\
    Forall (fun names => names = []) (values metrics).
Proof.
  apply (walker_without_root metric_type_set).
  - apply Permutation_refl.
  - simpl. intros f [<- | [<- | []]]; simpl; discriminate.
Defined.

(** C5, as the code has it: when every field the walker descends into has
    its ["fields"], it returns a catalog that lists under each metric type
    the names of the children of the fields of that type, in schema order;
    taken together the lists hold exactly the names found under the
    metric-type children, each as often as it is found. *)
Theorem walker_collects_names :
  forall iteration schema,
    Permutation iteration metric_type_set ->
    walkable schema = true ->
    exists metrics,
      get_distribution_metrics iteration schema = Ok metrics /\
      keys metrics = iteration /\
      (forall metric_type,
          In metric_type metric_type_set ->
          getitem metrics metric_type = Ok (names_of_type schema metric_type)) /\
      Permutation (List.concat (values metrics)) (names_found schema).
Proof.
  intros iteration schema P W.
  pose proof (metric_types_iterated iteration P) as I.
  exists (walk_schema schema (empty_catalog iteration)). split; [| split; [| split]].
  - now rewrite (walker_result iteration schema I), W.
  - now rewrite keys_walk_schema, keys_empty_catalog.
  - intros t Ht.
    apply (getitem_walk_schema schema (empty_catalog iteration) t []).
    apply getitem_empty_catalog. now apply I.
  - rewrite values_walk_schema by now rewrite keys_empty_catalog.
    now rewrite (concat_all_nil _ (values_empty_catalog iteration)).
Qed.

Lemma walker_collects_names_witness :
  exists metrics,
    get_distribution_metrics metric_type_set example_schema = Ok metrics /\
    keys metrics = metric_type_set /\
    (forall metric_type,
        In metric_type metric_type_set ->
        getitem metrics metric_type = Ok (names_of_type example_schema metric_type)) /\
    Permutation (List.concat (values metrics)) (names_found example_schema).
Proof.
  apply (walker_collects_names metric_type_set example_schema).
  - apply Permutation_refl.
  - reflexivity.
Defined.

(** C5 fails as stated: one metric-type child without ["fields"] makes the
    walker raise, also when names are found under another child of the
    only root field. *)
Lemma walker_drops_found_names :
  List.length (filter is_root partly_without_fields) = 1 /\
  names_found partly_without_fields = [ "load_time" ] /\
  get_distribution_metrics metric_type_set partly_without_fields
    = Raise (KeyError "fields") /\
  (forall iteration,
      Permutation iteration metric_type_set ->
      get_distribution_metrics iteration partly_without_fields
        = Raise (KeyError "fields")).
Proof.
  split; [reflexivity | split; [reflexivity | split; [reflexivity |]]].
  intros iteration P.
  now rewrite (walker_result _ _ (metric_types_iterated iteration P)).
Qed.

(** C1, as the code has it: a missing ["fields"] on a top-level field
    named ["metrics"] or on a metric-type child of one makes the walker
    raise [KeyError]; when they all have it, the walker returns a
    catalog, with the empty list for every type under which the schema
    has no name, as when the ["fields"] of its fields are empty lists. *)
Theorem walker_missing_fields :
  forall iteration schema,
    Permutation iteration metric_type_set ->
    match get_distribution_metrics iteration schema with
    | Raise e => walkable schema = false /\ e = KeyError "fields"
    | Ok metrics =>
        walkable schema = true /\
        forall metric_type,
          In metric_type metric_type_set ->
          names_of_type schema metric_type = [] ->
          getitem metrics metric_type = Ok []
    end.
Proof.
  intros iteration schema P.
  pose proof (metric_types_iterated iteration P) as I.
  rewrite (walker_result iteration schema I).
  destruct (walkable schema); split; try reflexivity.
  intros t Ht E.
  rewrite (getitem_walk_schema schema (empty_catalog iteration) t []).
  - now rewrite E.
  - apply getitem_empty_catalog. now apply I.
Qed.

Lemma walker_missing_fields_witness :
  match get_distribution_metrics metric_type_set empty_fields with
  | Raise e => walkable empty_fields = false /\ e = KeyError "fields"
  | Ok metrics =>
      walkable empty_fields = true /\
      forall metric_type,
        In metric_type metric_type_set ->
        names_of_type empty_fields metric_type = [] ->
        getitem metrics metric_type = Ok []
  end.
Proof.
  apply (walker_missing_fields metric_type_set empty_fields).
  apply Permutation_refl.
Defined.

(** C1 fails as stated: without a ["fields"] entry on the root field, or
    on a metric-type child of it, the walker raises and returns no
    catalog. *)
Lemma walker_raises_without_fields :
  get_distribution_metrics metric_type_set root_without_fields
    = Raise (KeyError "fields") /\
  get_distribution_metrics metric_type_set type_without_fields
    = Raise (KeyError "fields") /\
  (forall iteration metrics,
      Permutation iteration metric_type_set ->
      get_distribution_metrics iteration root_without_fields <> Ok metrics /\
      get_distribution_metrics iteration type_without_fields <> Ok metrics).
Proof.
  split; [reflexivity | split; [reflexivity |]].
  intros iteration metrics P.
  rewrite !(walker_result _ _ (metric_types_iterated iteration P)).
  split; discriminate.
Qed.

(** ** [attribute_combinations] *)

Lemma flat_map_flat_map {A B C : Type} (f : A -> list B) (g : B -> list C) l :
  flat_map (fun x => flat_map g (f x)) l = flat_map g (flat_map f l).
Proof.
  induction l as [| x l IH]; simpl; [reflexivity |].
  now rewrite flat_map_app, IH.
Qed.

Lemma flat_map_guard {A B : Type} (keep : A -> bool) (f : A -> B) l :
  flat_map (fun x => if negb (keep x) then [] else [f x]) l = map f (filter keep l).
Proof.
  induction l as [| x l IH]; simpl; [reflexivity |].
  destruct (keep x); simpl; now rewrite IH.
Qed.

(** The loops as one expression: the groupings that pass the test, each
    turned into its flags. *)
Lemma attribute_combinations_groupings attributes :
  attribute_combinations attributes =
  map (select_expr attributes) (filter has_required (groupings attributes)).
Proof.
  unfold attribute_combinations, groupings.
  rewrite flat_map_flat_map, <- flat_map_guard.
  apply flat_map_ext. intros g. unfold has_required, required. simpl.
  now destruct (contains g "channel"), (contains g "app_version").
Qed.

Lemma combinations_incl {A : Type} (pool : list A) :
  forall r g, In g (combinations pool r) -> incl g pool.
Proof.
  induction pool as [| x pool IH]; intros [| r] g; simpl.
  - intros [<- | []]. apply incl_nil_l.
  - tauto.
  - intros [<- | []]. apply incl_nil_l.
  - rewrite in_app_iff, in_map_iff. intros [[g' [<- Hg']] | Hg].
    + apply incl_cons; [now left |]. apply incl_tl. now apply (IH r).
    + apply incl_tl. now apply (IH (S r)).
Qed.

Lemma groupings_incl attributes g : In g (groupings attributes) -> incl g attributes.
Proof.
  unfold groupings. rewrite in_flat_map. intros [r [_ Hg]].
  now apply (combinations_incl attributes r).
Qed.

Lemma has_required_incl g : has_required g = true <-> incl required g.
Proof.
  unfold has_required. rewrite forallb_forall. split.
  - intros H r Hr. now apply contains_In, H.
  - intros H r Hr. now apply contains_In, H.
Qed.

Lemma emitted_grouping attributes combination :
  In combination (attribute_combinations attributes) <->
  exists g, In g (groupings attributes) /\ has_required g = true /\
            combination = select_expr attributes g.
Proof.
  rewrite attribute_combinations_groupings, in_map_iff. split.
  - intros [g [<- Hg]]. apply filter_In in Hg as [Hg Hr]. now exists g.
  - intros [g [Hg [Hr ->]]]. exists g. split; [reflexivity |]. now apply filter_In.
Qed.

(** C3: in every emitted combination each of the attributes the loop
    asks for, ["channel"] and ["app_version"], is flagged [true] and
    nowhere flagged [false]; and when one of them is not in the attribute
    list, nothing is emitted. *)
Theorem combinations_flag_required :
  forall attributes,
    (forall combination attribute,
        In combination (attribute_combinations attributes) ->
        In attribute required ->
        In (attribute, true) combination /\ ~ In (attribute, false) combination) /\
    (~ incl required attributes -> attribute_combinations attributes = []).
Proof.
  intros attributes. split.
  - intros combination r Hc Hr.
    apply emitted_grouping in Hc as [g [Hg [Hreq ->]]].
    apply has_required_incl in Hreq.
    pose proof (Hreq r Hr) as Hin. unfold select_expr. split.
    + apply in_map_iff. exists r. split.
      * f_equal. now apply contains_In.
      * now apply (groupings_incl attributes g).
    + rewrite in_map_iff. intros [a [E _]]. injection E as -> E.
      apply contains_In in Hin. congruence.
  - intros N. destruct (attribute_combinations attributes) as [| c cs] eqn:E;
      [reflexivity |].
    exfalso. apply N.
    assert (Hc : In c (attribute_combinations attributes)) by (rewrite E; now left).
    apply emitted_grouping in Hc as [g [Hg [Hreq _]]].
    apply has_required_incl in Hreq.
    intros r Hr. now apply (groupings_incl attributes g), Hreq.
Qed.

Lemma combinations_flag_required_witness :
  (forall combination attribute,
      In combination
         (attribute_combinations ["os"; "app_version"; "app_build_id"; "channel"]) ->
      In attribute required ->
      In (attribute, true) combination /\ ~ In (attribute, false) combination) /\
  (~ incl required ["os"; "app_version"; "app_build_id"; "channel"] ->
   attribute_combinations ["os"; "app_version"; "app_build_id"; "channel"] = []).
Proof.
  exact (combinations_flag_required ["os"; "app_version"; "app_build_id"; "channel"]).
Defined.

(** ** [combinations] *)

Lemma combinations_map {A B : Type} (f : A -> B) pool :
  forall r, combinations (map f pool) r = map (map f) (combinations pool r).
Proof.
  induction pool as [| x pool IH]; intros [| r]; simpl; try reflexivity.
  rewrite !IH, map_app, !map_map. reflexivity.
Qed.

Lemma combinations_length {A : Type} (pool : list A) :
  forall r g, In g (combinations pool r) -> List.length g = r.
Proof.
  induction pool as [| x pool IH]; intros [| r] g; simpl.
  - now intros [<- | []].
  - tauto.
  - now intros [<- | []].
  - rewrite in_app_iff, in_map_iff. intros [[g' [<- Hg']] | Hg].
    + simpl. f_equal. now apply IH.
    + now apply IH.
Qed.

Lemma combinations_beyond {A : Type} (pool : list A) :
  forall r, List.length pool < r -> combinations pool r = [].
Proof.
  induction pool as [| x pool IH]; intros [| r] H; simpl in *; try lia.
  - reflexivity.
  - rewrite !IH by lia. reflexivity.
Qed.

(** The combinations of a list are drawn through the combinations of its
    positions. *)
Lemma combinations_positions l :
  forall r, combinations l r = map (pick l) (combinations (seq 0 (List.length l)) r).
Proof.
  induction l as [| x l IH]; intros [| r]; try reflexivity.
  cbn [List.length seq]. rewrite <- seq_shift.
  cbn [combinations]. rewrite !combinations_map, map_app, !map_map, !IH, !map_map.
  f_equal; apply map_ext; intros t; unfold pick; simpl; now rewrite map_map.
Qed.

Lemma StronglySorted_app {A : Type} (R : A -> A -> Prop) l1 l2 :
  StronglySorted R l1 -> StronglySorted R l2 ->
  (forall a b, In a l1 -> In b l2 -> R a b) ->
  StronglySorted R (l1 ++ l2).
Proof.
  induction 1 as [| x l1 Hs IH Hall]; intros H2 Hx; simpl; [assumption |].
  constructor.
  - apply IH; [assumption |]. intros a b Ha Hb. apply Hx; [now right | assumption].
  - apply Forall_app. split; [assumption |].
    apply Forall_forall. intros b Hb. apply Hx; [now left | assumption].
Qed.

Lemma StronglySorted_map {A B : Type} (R : B -> B -> Prop) (f : A -> B) l :
  StronglySorted R (map f l) <-> StronglySorted (fun a b => R (f a) (f b)) l.
Proof.
  induction l as [| x l IH]; simpl; split; intros H; try constructor;
    apply StronglySorted_inv in H as [Hs Hall].
  - now apply IH.
  - rewrite Forall_forall in *. intros a Ha. apply Hall. now apply in_map.
  - now apply IH.
  - rewrite Forall_forall in *. intros b Hb.
    apply in_map_iff in Hb as [a [<- Ha]]. now apply Hall.
Qed.

Lemma StronglySorted_filter {A : Type} (R : A -> A -> Prop) (keep : A -> bool) l :
  StronglySorted R l -> StronglySorted R (filter keep l).
Proof.
  induction 1 as [| x l Hs IH Hall]; simpl; [constructor |].
  destruct (keep x); [| assumption]. constructor; [assumption |].
  rewrite Forall_forall in *. intros a Ha. apply Hall.
  now apply filter_In in Ha as [Ha _].
Qed.

Lemma StronglySorted_weaken {A : Type} (R Q : A -> A -> Prop) l :
  (forall a b, In a l -> In b l -> R a b -> Q a b) ->
  StronglySorted R l -> StronglySorted Q l.
Proof.
  intros H Hs. induction Hs as [| x l Hs IH Hall]; constructor.
  - apply IH. intros a b Ha Hb. apply H; now right.
  - rewrite Forall_forall in *. intros b Hb.
    apply H; [now left | now right | now apply Hall].
Qed.

Lemma StronglySorted_NoDup {A : Type} (R : A -> A -> Prop) l :
  (forall a, ~ R a a) -> StronglySorted R l -> NoDup l.
Proof.
  intros Hirr. induction 1 as [| x l Hs IH Hall]; constructor; [| assumption].
  intros Hx. rewrite Forall_forall in Hall. now apply (Hirr x), Hall.
Qed.

Lemma lex_lt_irrefl a : ~ lex_lt a a.
Proof. induction a as [| x a IH]; simpl; [tauto | intros [H | [_ H]]; [lia | auto]]. Qed.

Lemma emitted_before_irrefl a : ~ emitted_before a a.
Proof. intros [H | [_ H]]; [lia | now apply lex_lt_irrefl in H]. Qed.

(** Drawn from increasing positions, the combinations come in increasing
    lexicographic order, and each is increasing. *)
Lemma combinations_lex_sorted pool :
  StronglySorted lt pool ->
  forall r, StronglySorted lex_lt (combinations pool r).
Proof.
  induction 1 as [| x pool Hs IH Hall]; intros [| r]; simpl;
    try (repeat constructor).
  apply StronglySorted_app.
  - apply StronglySorted_map.
    apply (StronglySorted_weaken lex_lt); [| apply IH].
    intros a b _ _ H. simpl. now right.
  - apply IH.
  - intros a b Ha Hb. apply in_map_iff in Ha as [a' [<- _]].
    pose proof (combinations_length _ _ _ Hb) as L.
    pose proof (combinations_incl _ _ _ Hb) as I.
    destruct b as [| y b]; [discriminate |]. simpl. left.
    rewrite Forall_forall in Hall. apply Hall, I. now left.
Qed.

Lemma combinations_increasing pool :
  StronglySorted lt pool ->
  forall r g, In g (combinations pool r) -> StronglySorted lt g.
Proof.
  induction 1 as [| x pool Hs IH Hall]; intros [| r] g; simpl.
  - intros [<- | []]. constructor.
  - tauto.
  - intros [<- | []]. constructor.
  - rewrite in_app_iff, in_map_iff. intros [[g' [<- Hg']] | Hg].
    + constructor; [now apply (IH r) |].
      rewrite Forall_forall in *. intros y Hy.
      apply Hall. now apply (combinations_incl _ _ _ Hg').
    + now apply (IH (S r)).
Qed.

Lemma seq_increasing n : forall a, StronglySorted lt (seq a n).
Proof.
  induction n as [| n IH]; intros a; simpl; constructor; [apply IH |].
  apply Forall_forall. intros i Hi. apply in_seq in Hi. lia.
Qed.

(** ** The order of the groupings *)

Lemma reversed_range_S m : reversed_range (S m) = m :: reversed_range m.
Proof. unfold reversed_range. now rewrite seq_S, rev_unit. Qed.

Lemma in_reversed_range k m : In k (reversed_range m) <-> k < m.
Proof. unfold reversed_range. rewrite <- in_rev, in_seq. lia. Qed.

Lemma map_flat_map {A B C : Type} (f : B -> C) (g : A -> list B) l :
  flat_map (fun x => map f (g x)) l = map f (flat_map g l).
Proof.
  induction l as [| x l IH]; simpl; [reflexivity |]. now rewrite map_app, IH.
Qed.

Lemma sizes_descend n m :
  StronglySorted emitted_before
    (flat_map (combinations (seq 0 n)) (reversed_range m)).
Proof.
  induction m as [| m IH]; [constructor |].
  rewrite reversed_range_S. simpl. apply StronglySorted_app.
  - apply (StronglySorted_weaken lex_lt).
    + intros a b Ha Hb H. right. split; [| assumption].
      now rewrite (combinations_length _ _ _ Ha), (combinations_length _ _ _ Hb).
    + apply combinations_lex_sorted, seq_increasing.
  - exact IH.
  - intros a b Ha Hb. left.
    apply in_flat_map in Hb as [k [Hk Hb]]. apply in_reversed_range in Hk.
    now rewrite (combinations_length _ _ _ Ha), (combinations_length _ _ _ Hb).
Qed.

Lemma index_groupings_sorted n : StronglySorted emitted_before (index_groupings n).
Proof. apply sizes_descend. Qed.

Lemma index_groupings_shape n t :
  In t (index_groupings n) ->
  StronglySorted lt t /\ forall i, In i t -> i < n.
Proof.
  unfold index_groupings. rewrite in_flat_map. intros [r [_ Ht]]. split.
  - apply (combinations_increasing _ (seq_increasing n 0) r t Ht).
  - intros i Hi. apply (combinations_incl _ _ _ Ht) in Hi. apply in_seq in Hi. lia.
Qed.

Lemma groupings_positions l :
  groupings l = map (pick l) (index_groupings (List.length l)).
Proof.
  unfold groupings, index_groupings. rewrite <- map_flat_map.
  apply flat_map_ext. intros r. apply combinations_positions.
Qed.

(** ** Reading the positions back from the flags *)

Lemma nth_map_within {A B : Type} (f : A -> B) l d d' :
  forall i, i < List.length l -> nth i (map f l) d' = f (nth i l d).
Proof.
  induction l as [| x l IH]; intros [| i] H; simpl in *; try lia; auto.
  apply IH. lia.
Qed.

Lemma included_select l g :
  included_indices (select_expr l g) =
  filter (fun i => contains g (nth i l EmptyString)) (seq 0 (List.length l)).
Proof.
  unfold included_indices, select_expr. rewrite length_map.
  apply filter_ext_in. intros i Hi. apply in_seq in Hi.
  rewrite (nth_map_within _ l EmptyString) by lia. reflexivity.
Qed.

Lemma contains_pick l t i :
  NoDup l -> i < List.length l -> (forall j, In j t -> j < List.length l) ->
  contains (pick l t) (nth i l EmptyString) = existsb (Nat.eqb i) t.
Proof.
  intros Hl Hi Ht. apply eq_true_iff_eq.
  rewrite contains_In, existsb_exists. unfold pick. rewrite in_map_iff. split.
  - intros [j [E Hj]]. exists j. split; [assumption |].
    apply Nat.eqb_eq. symmetry. apply (proj1 (NoDup_nth l EmptyString) Hl); auto.
  - intros [j [Hj E]]. apply Nat.eqb_eq in E. subst j. now exists i.
Qed.

Lemma filter_positions n :
  forall a t,
    StronglySorted lt t -> (forall i, In i t -> a <= i < a + n) ->
    filter (fun i => existsb (Nat.eqb i) t) (seq a n) = t.
Proof.
  induction n as [| n IH]; intros a t Hs Hr; simpl.
  - destruct t as [| y t]; [reflexivity |].
    specialize (Hr y (or_introl eq_refl)). lia.
  - destruct t as [| y t].
    + simpl. clear. generalize (seq (S a) n). intros l.
      induction l; simpl; auto.
    + apply StronglySorted_inv in Hs as [Hs Hall]. rewrite Forall_forall in Hall.
      destruct (Nat.eq_dec y a) as [-> | N].
      * simpl. rewrite Nat.eqb_refl. simpl. f_equal.
        transitivity (filter (fun i => existsb (Nat.eqb i) t) (seq (S a) n));
          [| apply (IH (S a) t Hs)].
        -- apply filter_ext_in. intros i Hi. apply in_seq in Hi.
           destruct (Nat.eqb_spec i a); [lia | reflexivity].
        -- intros i Hi. specialize (Hall i Hi).
           specialize (Hr i (or_intror Hi)). lia.
      * pose proof (Hr y (or_introl eq_refl)) as Hy.
        assert (E : existsb (Nat.eqb a) (y :: t) = false).
        { apply not_true_is_false. rewrite existsb_exists.
          intros [j [[<- | Hj] Ej]]; apply Nat.eqb_eq in Ej; [lia |].
          specialize (Hall j Hj). lia. }
        rewrite E. apply IH.
        -- constructor; [assumption | now apply Forall_forall].
        -- intros i [<- | Hi]; [lia |]. specialize (Hall i Hi).
           specialize (Hr i (or_intror Hi)). lia.
Qed.

Lemma included_pick l t :
  NoDup l -> StronglySorted lt t -> (forall i, In i t -> i < List.length l) ->
  included_indices (select_expr l (pick l t)) = t.
Proof.
  intros Hl Hs Hr. rewrite included_select.
  transitivity (filter (fun i => existsb (Nat.eqb i) t) (seq 0 (List.length l)));
    [| apply (filter_positions (List.length l) 0 t Hs)].
  - apply filter_ext_in. intros i Hi. apply in_seq in Hi.
    apply contains_pick; auto. lia.
  - intros i Hi. specialize (Hr i Hi). lia.
Qed.

Lemma attribute_combinations_positions l :
  attribute_combinations l =
  map (fun t => select_expr l (pick l t))
      (filter (fun t => has_required (pick l t)) (index_groupings (List.length l))).
Proof.
  rewrite attribute_combinations_groupings, groupings_positions.
  now rewrite filter_map_swap, map_map.
Qed.

(** With pairwise distinct attributes, the flags of the emitted
    combinations give back the index tuples they were drawn from. *)
Lemma included_emitted l :
  NoDup l ->
  map included_indices (attribute_combinations l) =
  filter (fun t => has_required (pick l t)) (index_groupings (List.length l)).
Proof.
  intros Hl. rewrite attribute_combinations_positions, map_map.
  rewrite <- (map_id (filter _ _)) at 2.
  apply map_ext_in. intros t Ht. apply filter_In in Ht as [Ht _].
  apply index_groupings_shape in Ht as [Hs Hr]. now apply included_pick.
Qed.

Lemma glean_attributes_distinct : NoDup glean_attributes.
Proof.
  unfold glean_attributes.
  repeat (constructor; [simpl; intuition discriminate |]). constructor.
Qed.

(** C4, as the code has it: when the attributes are pairwise distinct, of
    two emitted combinations the earlier one includes more attributes, or
    as many at a lexicographically smaller tuple of positions of the
    attribute list. *)
Theorem combinations_emitted_in_order :
  forall attributes, NoDup attributes -> emission_ordered attributes.
Proof.
  intros attributes Hl i j c1 c2 Hij H1 H2.
  refine (StronglySorted_nth_error
            (fun a b => emitted_before (included_indices a) (included_indices b))
            _ _ i j c1 c2 Hij H1 H2).
  apply StronglySorted_map. rewrite (included_emitted attributes Hl).
  apply StronglySorted_filter, index_groupings_sorted.
Qed.

Lemma combinations_emitted_in_order_witness : emission_ordered glean_attributes.
Proof.
  apply (combinations_emitted_in_order glean_attributes).
  apply glean_attributes_distinct.
Defined.

(** C4 fails as stated: with ["app_version"] named twice, the second
    emitted combination includes three attributes and the third one
    four. *)
Lemma combinations_out_of_order :
  nth_error (attribute_combinations repeated_attributes) 1 =
    Some [ ("channel", true); ("app_version", true); ("app_version", true);
           ("os", false) ] /\
  nth_error (attribute_combinations repeated_attributes) 2 =
    Some [ ("channel", true); ("app_version", true); ("app_version", true);
           ("os", true) ] /\
  ~ emission_ordered repeated_attributes.
Proof.
  split; [reflexivity | split; [reflexivity |]].
  intros H.
  specialize (H 1 2 _ _ (Nat.lt_succ_diag_r 1) eq_refl eq_refl).
  vm_compute in H. destruct H as [H | [H _]].
  - repeat apply le_S_n in H. inversion H.
  - discriminate.
Qed.

(** ** Counting the groupings *)

Lemma flat_map_rev {A B : Type} (f : A -> list B) l :
  Permutation (flat_map f (rev l)) (flat_map f l).
Proof.
  induction l as [| x l IH]; simpl; [reflexivity |].
  rewrite flat_map_app. simpl. rewrite app_nil_r, IH. apply Permutation_app_comm.
Qed.

Lemma flat_map_map_in {A B C : Type} (f : B -> list C) (g : A -> B) l :
  flat_map f (map g l) = flat_map (fun x => f (g x)) l.
Proof.
  induction l as [| x l IH]; simpl; [reflexivity |]. now rewrite IH.
Qed.

Lemma flat_map_split {A B : Type} (f g : A -> list B) l :
  Permutation (flat_map (fun x => f x ++ g x) l) (flat_map f l ++ flat_map g l).
Proof.
  induction l as [| x l IH]; simpl; [reflexivity |].
  rewrite IH, <- !app_assoc. apply Permutation_app_head.
  rewrite !app_assoc. apply Permutation_app_tail, Permutation_app_comm.
Qed.

Lemma combinations_0 {A : Type} (pool : list A) : combinations pool 0 = [[]].
Proof. now destruct pool. Qed.

(** Over all sizes, the combinations of a list are its subsequences. *)
Lemma all_sizes {A : Type} (l : list A) :
  Permutation (flat_map (combinations l) (seq 0 (S (List.length l)))) (subseqs l).
Proof.
  induction l as [| x l IH]; [reflexivity |].
  cbn [List.length subseqs].
  set (n := List.length l) in *.
  assert (E : [[]] ++ flat_map (fun r => combinations l (S r)) (seq 0 (S n))
              = flat_map (combinations l) (seq 0 (S n))).
  { rewrite <- (flat_map_map_in (combinations l) S), seq_shift, seq_S.
    rewrite flat_map_app. cbn [flat_map].
    rewrite (combinations_beyond l (1 + n)) by (unfold n; lia).
    change (seq 0 (S n)) with (0 :: seq 1 n). cbn [flat_map].
    now rewrite combinations_0, !app_nil_r. }
  change (seq 0 (S (S n))) with (0 :: seq 1 (S n)).
  rewrite <- seq_shift. cbn [flat_map]. rewrite combinations_0, flat_map_map_in.
  cbn [combinations].
  apply Permutation_trans
    with (map (cons x) (flat_map (combinations l) (seq 0 (S n)))
          ++ [[]] ++ flat_map (fun r => combinations l (S r)) (seq 0 (S n))).
  - rewrite flat_map_split, map_flat_map. cbn [app]. apply Permutation_middle.
  - rewrite E. apply Permutation_app; [apply Permutation_map |]; exact IH.
Qed.

Lemma groupings_subseqs l : Permutation (groupings l) (subseqs l).
Proof.
  unfold groupings, reversed_range.
  rewrite flat_map_rev, Nat.add_1_r. apply all_sizes.
Qed.

Lemma filter_length_perm {A : Type} (keep : A -> bool) l l' :
  Permutation l l' -> List.length (filter keep l) = List.length (filter keep l').
Proof.
  induction 1 as [| x l l' _ IH | x y l | l l' l'' _ IH1 _ IH2]; simpl.
  - reflexivity.
  - destruct (keep x); simpl; now rewrite IH.
  - destruct (keep x), (keep y); reflexivity.
  - now rewrite IH1.
Qed.

Lemma subseqs_incl {A : Type} (l : list A) g : In g (subseqs l) -> incl g l.
Proof.
  revert g. induction l as [| x l IH]; intros g; simpl.
  - intros [<- | []]. apply incl_nil_l.
  - rewrite in_app_iff, in_map_iff. intros [[g' [<- Hg']] | Hg].
    + apply incl_cons; [now left |]. apply incl_tl. now apply IH.
    + apply incl_tl. now apply IH.
Qed.

Lemma length_subseqs {A : Type} (l : list A) :
  List.length (subseqs l) = 2 ^ List.length l.
Proof.
  induction l as [| x l IH]; simpl; [reflexivity |].
  rewrite length_app, length_map, IH. lia.
Qed.

Lemma forallb_ext_in {A : Type} (f g : A -> bool) l :
  (forall a, In a l -> f a = g a) -> forallb f l = forallb g l.
Proof.
  induction l as [| x l IH]; intros H; simpl; [reflexivity |].
  rewrite (H x (or_introl eq_refl)), IH; [reflexivity |].
  intros a Ha. apply H. now right.
Qed.

Lemma contains_cons x g r : contains (x :: g) r = String.eqb r x || contains g r.
Proof. reflexivity. Qed.

(** Of the subsequences of a list without repetition, those that contain
    [k] given elements of it are [2 ^ (n - k)]. *)
Lemma count_supersets l :
  forall req,
    NoDup l -> NoDup req -> incl req l ->
    List.length (filter (fun g => forallb (contains g) req) (subseqs l)) =
    2 ^ (List.length l - List.length req).
Proof.
  induction l as [| x l IH]; intros req Hl Hreq Hincl.
  - destruct req as [| r req]; [reflexivity |].
    exfalso. apply (Hincl r). now left.
  - apply NoDup_cons_iff in Hl as [Hx Hl].
    cbn [subseqs]. rewrite filter_app, length_app, filter_map_swap, length_map.
    destruct (in_dec string_dec x req) as [Hin | Hout].
    + apply in_split in Hin as [r1 [r2 ->]].
      pose proof (NoDup_remove_1 _ _ _ Hreq) as Hreq'.
      pose proof (NoDup_remove_2 _ _ _ Hreq) as Hx'.
      assert (Hincl' : incl (r1 ++ r2) l).
      { intros r Hr.
        assert (Hr' : In r (r1 ++ x :: r2))
          by (apply in_app_iff; apply in_app_iff in Hr; simpl; tauto).
        destruct (Hincl r Hr') as [<- | H]; [contradiction | assumption]. }
      rewrite (filter_ext_in _ (fun g => forallb (contains g) (r1 ++ r2))).
      2:{ intros g _. rewrite !forallb_app. cbn [forallb].
          rewrite contains_cons, String.eqb_refl. cbn [orb andb].
          f_equal; apply forallb_ext_in; intros r Hr; rewrite contains_cons;
            destruct (String.eqb_spec r x) as [-> | _]; try reflexivity;
            exfalso; apply Hx'; apply in_app_iff; tauto. }
      rewrite (IH _ Hl Hreq' Hincl').
      rewrite (filter_ext_in _ (fun _ => false)).
      2:{ intros g Hg. rewrite forallb_app. cbn [forallb].
          assert (E : contains g x = false).
          { apply not_true_is_false. rewrite contains_In. intros H.
            apply Hx. now apply (subseqs_incl l g). }
          rewrite E. cbn [andb]. apply andb_false_r. }
      rewrite filter_false. cbn [List.length].
      rewrite !length_app. cbn [List.length]. rewrite Nat.add_0_r. f_equal. lia.
    + assert (Hincl' : incl req l).
      { intros r Hr. destruct (Hincl r Hr) as [<- | H]; [contradiction | assumption]. }
      rewrite (filter_ext_in _ (fun g => forallb (contains g) req)).
      2:{ intros g _. apply forallb_ext_in. intros r Hr. rewrite contains_cons.
          destruct (String.eqb_spec r x) as [-> | _]; [contradiction | reflexivity]. }
      rewrite (IH _ Hl Hreq Hincl').
      pose proof (NoDup_incl_length Hreq Hincl') as L.
      cbn [List.length].
      replace (S (List.length l) - List.length req)
        with (S (List.length l - List.length req)) by lia.
      simpl. lia.
Qed.

Lemma filter_in_combinations {A : Type} (keep : A -> bool) l :
  In (filter keep l) (combinations l (List.length (filter keep l))).
Proof.
  induction l as [| x l IH]; simpl; [now left |].
  destruct (keep x); simpl.
  - apply in_app_iff. left. now apply in_map.
  - destruct (filter keep l) as [| y g] eqn:E; simpl in *; [now left |].
    apply in_app_iff. now right.
Qed.

Lemma filter_in_groupings (keep : string -> bool) l :
  In (filter keep l) (groupings l).
Proof.
  unfold groupings. apply in_flat_map.
  exists (List.length (filter keep l)). split; [| apply filter_in_combinations].
  apply in_reversed_range. pose proof (filter_length_le keep l). lia.
Qed.

(** Every subset of the attributes has its flags drawn by some grouping. *)
Lemma select_expr_subset attributes subset :
  exists g,
    In g (groupings attributes) /\
    (forall a, In a g <-> In a attributes /\ In a subset) /\
    select_expr attributes subset = select_expr attributes g.
Proof.
  exists (filter (contains subset) attributes). split; [| split].
  - apply filter_in_groupings.
  - intros a. now rewrite filter_In, contains_In.
  - unfold select_expr. apply map_ext_in. intros a Ha. f_equal.
    apply eq_true_iff_eq. rewrite !contains_In, filter_In, contains_In. tauto.
Qed.

Lemma attribute_combinations_distinct attributes :
  NoDup attributes -> NoDup (attribute_combinations attributes).
Proof.
  intros Hl. apply (NoDup_map_inv included_indices).
  rewrite (included_emitted attributes Hl). apply NoDup_filter.
  apply (StronglySorted_NoDup emitted_before);
    [apply emitted_before_irrefl | apply index_groupings_sorted].
Qed.

Lemma length_attribute_combinations attributes :
  List.length (attribute_combinations attributes) =
  List.length (filter has_required (subseqs attributes)).
Proof.
  rewrite attribute_combinations_groupings, length_map.
  apply filter_length_perm, groupings_subseqs.
Qed.

Lemma required_distinct : NoDup required.
Proof.
  unfold required.
  repeat (constructor; [simpl; intuition discriminate |]). constructor.
Qed.

(** C10: for pairwise distinct attributes with ["channel"] and
    ["app_version"] among them, [2 ^ (n - 2)] combinations are emitted, no
    two of them equal, and they are the flags of the subsets of the
    attributes that contain both. *)
Theorem combinations_counted :
  forall attributes,
    NoDup attributes ->
    In "channel" attributes ->
    In "app_version" attributes ->
    List.length (attribute_combinations attributes)
      = 2 ^ (List.length attributes - 2) /\
    NoDup (attribute_combinations attributes) /\
    (forall combination,
        In combination (attribute_combinations attributes) <->
        exists subset,
          incl subset attributes /\
          In "channel" subset /\ In "app_version" subset /\
          combination = select_expr attributes subset).
Proof.
  intros attributes Hl Hc Ha. split; [| split].
  - rewrite length_attribute_combinations.
    unfold has_required.
    rewrite (count_supersets attributes required Hl required_distinct);
      [reflexivity |].
    intros r [<- | [<- | []]]; assumption.
  - now apply attribute_combinations_distinct.
  - intros combination. rewrite emitted_grouping. split.
    + intros [g [Hg [Hr ->]]]. exists g. apply has_required_incl in Hr.
      split; [now apply groupings_incl |].
      split; [apply Hr; simpl; tauto |].
      split; [apply Hr; simpl; tauto | reflexivity].
    + intros [s [Hs [Hsc [Hsa ->]]]].
      destruct (select_expr_subset attributes s) as [g [Hg [Hmem E]]].
      exists g. split; [assumption |]. split; [| assumption].
      apply has_required_incl.
      intros r [<- | [<- | []]]; apply Hmem; auto.
Qed.

Lemma combinations_counted_witness :
  List.length (attribute_combinations glean_attributes)
    = 2 ^ (List.length glean_attributes - 2) /\
  NoDup (attribute_combinations glean_attributes) /\
  (forall combination,
      In combination (attribute_combinations glean_attributes) <->
      exists subset,
        incl subset glean_attributes /\
        In "channel" subset /\ In "app_version" subset /\
        combination = select_expr glean_attributes subset).
Proof.
  apply (combinations_counted glean_attributes).
  - apply glean_attributes_distinct.
  - simpl. tauto.
  - simpl. tauto.
Defined.

(** The loops go through all [2 ^ n] groupings before the test. *)
Lemma length_groupings l : List.length (groupings l) = 2 ^ List.length l.
Proof.
  rewrite (Permutation_length (groupings_subseqs l)). apply length_subseqs.
Qed.

(** ** The walker and the builder together *)

Lemma items_permutation metrics metrics' :
  Permutation metrics metrics' ->
  Permutation (get_metrics_items metrics) (get_metrics_items metrics').
Proof.
  unfold get_metrics_items.
  induction 1 as [| e l l' _ IH | e e' l | l l' l'' _ IH1 _ IH2]; simpl.
  - reflexivity.
  - now apply Permutation_app_head.
  - rewrite !app_assoc. apply Permutation_app_tail, Permutation_app_comm.
  - now rewrite IH1.
Qed.

(** The fragment does not depend on the order of the catalog's entries. *)
Lemma get_metrics_sql_permutation metrics metrics' :
  Permutation metrics metrics' -> get_metrics_sql metrics = get_metrics_sql metrics'.
Proof.
  intros P. unfold get_metrics_sql, get_metrics_results.
  rewrite (sorted_permutation tuple4_lt tuple4_lt_asym tuple4_lt_trans
             tuple4_trichotomy _ _ (items_permutation _ _ P)).
  reflexivity.
Qed.

Lemma dict_by_keys {V : Type} (f : string -> V) (d : dict V) :
  NoDup (keys d) ->
  (forall k, In k (keys d) -> getitem d k = Ok (f k)) ->
  d = map (fun k => (k, f k)) (keys d).
Proof.
  unfold keys. induction d as [| [k v] d IH]; simpl; intros Hn Hg; [reflexivity |].
  apply NoDup_cons_iff in Hn as [Hk Hn].
  pose proof (Hg k (or_introl eq_refl)) as E. rewrite String.eqb_refl in E.
  injection E as ->. f_equal. apply IH; [assumption |].
  intros k' Hk'. specialize (Hg k' (or_intror Hk')).
  destruct (String.eqb_spec k' k) as [E | _]; [subst; contradiction | assumption].
Qed.

(** The catalog the walker returns, in closed form. *)
Lemma walker_catalog iteration schema :
  Permutation iteration metric_type_set ->
  walkable schema = true ->
  get_distribution_metrics iteration schema =
  Ok (map (fun metric_type => (metric_type, names_of_type schema metric_type))
          iteration).
Proof.
  intros P W.
  rewrite (walker_result _ _ (metric_types_iterated iteration P)), W. f_equal.
  rewrite (dict_by_keys (names_of_type schema)
             (walk_schema schema (empty_catalog iteration)));
    rewrite keys_walk_schema, keys_empty_catalog.
  - reflexivity.
  - apply (Permutation_NoDup (Permutation_sym P)).
    unfold metric_type_set.
    repeat (constructor; [simpl; intuition discriminate |]). constructor.
  - intros k Hk.
    apply (getitem_walk_schema schema (empty_catalog iteration) k []).
    now apply getitem_empty_catalog.
Qed.

(** * More of the code: the callers and what the builders guarantee them *)

(** ** [str.strip] *)

Lemma without_prefix_length w :
  forall s rest,
    without_prefix w s = Some rest ->
    List.length s = List.length w + List.length rest.
Proof.
  induction w as [| a w IH]; intros s rest; simpl.
  - intros H. now injection H as ->.
  - destruct s as [| b s]; [discriminate |].
    destruct (Ascii.eqb a b); [| discriminate].
    intros H. simpl. now rewrite (IH _ _ H).
Qed.

Lemma without_space_shorter spaces s rest :
  Forall (fun w => w <> []) spaces ->
  without_space spaces s = Some rest -> List.length rest < List.length s.
Proof.
  induction 1 as [| w spaces Hw _ IH]; simpl; [discriminate |].
  destruct (without_prefix w s) as [r |] eqn:E; [| exact IH].
  intros H. injection H as ->. apply without_prefix_length in E.
  destruct w; [contradiction | simpl in E; lia].
Qed.

Lemma without_space_nil spaces :
  Forall (fun w => w <> []) spaces -> without_space spaces [] = None.
Proof.
  induction 1 as [| w spaces Hw _ IH]; simpl; [reflexivity |].
  destruct w; [contradiction | exact IH].
Qed.

(** As many steps as the string has bytes leave nothing to drop. *)
Lemma lstrip_bytes_done spaces :
  Forall (fun w => w <> []) spaces ->
  forall steps s,
    List.length s <= steps ->
    without_space spaces (lstrip_bytes spaces steps s) = None.
Proof.
  intros Hs. induction steps as [| steps IH]; intros s L; simpl.
  - destruct s; [| simpl in L; lia]. now apply without_space_nil.
  - destruct (without_space spaces s) as [rest |] eqn:E; [| exact E].
    apply IH. apply (without_space_shorter _ _ _ Hs) in E. lia.
Qed.

Lemma list_ascii_of_string_app a b :
  list_ascii_of_string (a ++ b) = list_ascii_of_string a ++ list_ascii_of_string b.
Proof. induction a as [| c a IH]; simpl; [reflexivity | now rewrite IH]. Qed.

Lemma strip_parenthesised s : parenthesised s -> strip s = s.
Proof.
  intros [body E]. unfold strip. rewrite E.
  assert (L : forall steps l,
             lstrip_bytes (map bytes_of whitespace) steps ("("%char :: l)
             = "("%char :: l)
    by (intros [| steps] l; reflexivity).
  rewrite L.
  assert (R : forall steps l,
             lstrip_bytes (map (@rev ascii) (map bytes_of whitespace)) steps
                          (")"%char :: l)
             = ")"%char :: l)
    by (intros [| steps] l; reflexivity).
  change ("("%char :: body ++ [ ")"%char ]) with (("("%char :: body) ++ [ ")"%char ]).
  rewrite rev_app_distr. cbn [rev app]. rewrite R.
  cbn [rev]. rewrite rev_app_distr, rev_involutive. cbn [rev app].
  rewrite <- E. apply string_of_list_ascii_of_string.
Qed.

(** ** The shape of the fragment *)

Lemma render_item_parenthesised it : parenthesised (render_item it).
Proof.
  destruct it as [[[n t] sp] vp]. unfold parenthesised, render_item.
  exists (list_ascii_of_string
            (dquote ++ n ++ dquote ++ ", " ++ dquote ++ t ++ dquote
               ++ ", " ++ sp ++ ", " ++ vp)%string).
  rewrite !list_ascii_of_string_app. cbn [list_ascii_of_string app].
  repeat (rewrite <- app_assoc || rewrite <- app_comm_cons). reflexivity.
Qed.

Lemma join_parenthesised rows :
  rows <> [] -> Forall parenthesised rows -> parenthesised (join "," rows).
Proof.
  intros N H. induction H as [| row rows Hr Hrows IH]; [contradiction |].
  destruct rows as [| row' rows]; [exact Hr |].
  destruct Hr as [b E]. destruct (IH ltac:(discriminate)) as [b' E'].
  unfold join in *.
  change (String.concat "," (row :: row' :: rows))
    with (row ++ "," ++ String.concat "," (row' :: rows))%string.
  exists (b ++ [ ")"%char; ","%char; "("%char ] ++ b').
  rewrite !list_ascii_of_string_app, E, E'. cbn [list_ascii_of_string app].
  repeat (rewrite <- app_assoc || rewrite <- app_comm_cons). reflexivity.
Qed.

Lemma items_empty_iff metrics :
  get_metrics_items metrics = [] <-> Forall (fun entry => snd entry = []) metrics.
Proof.
  split; [| apply items_all_empty].
  unfold get_metrics_items.
  induction metrics as [| [key names] metrics IH]; simpl; intros H; constructor.
  - apply app_eq_nil in H as [H _]. now destruct names.
  - apply IH. now apply app_eq_nil in H as [_ H].
Qed.

Lemma results_empty_iff metrics :
  get_metrics_results metrics = [] <-> get_metrics_items metrics = [].
Proof.
  unfold get_metrics_results. split; intros H.
  - apply map_eq_nil in H. apply Permutation_nil.
    rewrite <- (sorted_items_perm metrics), H. reflexivity.
  - now rewrite H.
Qed.

Lemma get_metrics_sql_parenthesised metrics :
  get_metrics_items metrics <> [] -> parenthesised (get_metrics_sql metrics).
Proof.
  intros N. unfold get_metrics_sql. apply join_parenthesised.
  - intros E. apply N. now apply results_empty_iff.
  - unfold get_metrics_results. apply Forall_forall. intros row Hrow.
    apply in_map_iff in Hrow as [it [<- _]]. apply render_item_parenthesised.
Qed.

Lemma get_metrics_sql_empty_items metrics :
  get_metrics_sql metrics = EmptyString <-> get_metrics_items metrics = [].
Proof.
  split.
  - intros E. destruct (get_metrics_items metrics) as [| it its] eqn:I;
      [reflexivity |].
    assert (N : get_metrics_items metrics <> []) by (rewrite I; discriminate).
    destruct (get_metrics_sql_parenthesised metrics N) as [b Hb].
    rewrite E in Hb. discriminate.
  - intros I. unfold get_metrics_sql, get_metrics_results. now rewrite I.
Qed.

Lemma strip_fragment metrics :
  strip (get_metrics_sql metrics) = get_metrics_sql metrics.
Proof.
  destruct (get_metrics_items metrics) as [| it its] eqn:I.
  - now rewrite (proj2 (get_metrics_sql_empty_items metrics) I).
  - apply strip_parenthesised, get_metrics_sql_parenthesised.
    rewrite I. discriminate.
Qed.

Lemma fragment_of_tuples metrics metrics' :
  Permutation (get_metrics_items metrics) (get_metrics_items metrics') ->
  get_metrics_sql metrics = get_metrics_sql metrics'.
Proof.
  intros P. unfold get_metrics_sql, get_metrics_results.
  now rewrite (sorted_permutation tuple4_lt tuple4_lt_asym tuple4_lt_trans
                 tuple4_trichotomy _ _ P).
Qed.

(** X1: the fragment is the empty string exactly when the catalog lists
    no name; a catalog that lists a name gives a fragment that starts
    with a left and ends with a right parenthesis. *)
Theorem get_metrics_sql_empty_iff :
  forall metrics,
    (get_metrics_sql metrics = EmptyString <->
     Forall (fun entry => snd entry = []) metrics) /\
    (get_metrics_sql metrics <> EmptyString ->
     parenthesised (get_metrics_sql metrics)).
Proof.
  intros metrics. split.
  - now rewrite get_metrics_sql_empty_items, items_empty_iff.
  - intros N. apply get_metrics_sql_parenthesised.
    intros I. apply N. now apply get_metrics_sql_empty_items.
Qed.

(** X2: two catalogs from which the first loop collects the same tuples,
    each equally often, give the same fragment: neither the order of the
    entries nor the order of the names in a list shows in it. *)
Theorem get_metrics_sql_same_tuples :
  forall metrics metrics',
    Permutation (get_metrics_items metrics) (get_metrics_items metrics') ->
    get_metrics_sql metrics = get_metrics_sql metrics'.
Proof. exact fragment_of_tuples. Qed.

Lemma get_metrics_sql_same_tuples_witness :
  get_metrics_sql
    [ ("timing_distribution", ["render_time"; "load_time"]);
      ("memory_distribution", ["heap"]) ] =
  get_metrics_sql
    [ ("memory_distribution", ["heap"]);
      ("timing_distribution", ["load_time"; "render_time"]) ].
Proof.
  apply get_metrics_sql_same_tuples. simpl.
  apply Permutation_cons_app with (l1 := [ _; _ ]).
  apply Permutation_cons_app with (l1 := [ _ ]). reflexivity.
Defined.

(** X3: [strip] leaves every fragment as it is, so that [main] tests and
    renders the fragment itself. *)
Theorem strip_keeps_fragment :
  forall metrics, strip (get_metrics_sql metrics) = get_metrics_sql metrics.
Proof. exact strip_fragment. Qed.

(** ** More on the walker *)

Lemma metric_type_fields_app s1 s2 :
  metric_type_fields (s1 ++ s2) = metric_type_fields s1 ++ metric_type_fields s2.
Proof. unfold metric_type_fields. now rewrite filter_app, flat_map_app. Qed.

Lemma names_of_type_app s1 s2 metric_type :
  names_of_type (s1 ++ s2) metric_type =
  names_of_type s1 metric_type ++ names_of_type s2 metric_type.
Proof.
  unfold names_of_type. now rewrite metric_type_fields_app, filter_app, flat_map_app.
Qed.

Lemma walkable_app s1 s2 : walkable (s1 ++ s2) = walkable s1 && walkable s2.
Proof.
  unfold walkable. rewrite metric_type_fields_app, filter_app, !forallb_app.
  destruct (forallb has_fields (filter is_root s1)),
    (forallb has_fields (filter is_root s2)),
    (forallb has_fields (metric_type_fields s1)); reflexivity.
Qed.

Lemma combine_map {A B C : Type} (f : A -> B) (g : A -> C) l :
  combine (map f l) (map g l) = map (fun x => (f x, g x)) l.
Proof. induction l as [| x l IH]; simpl; [reflexivity | now rewrite IH]. Qed.

(** X4: walking one schema after another.  When both parts can be
    walked, the catalog of the whole has, key by key, the names of the
    first part followed by those of the second; when one cannot, the
    whole raises the [KeyError]. *)
Theorem walker_of_concatenation :
  forall iteration s1 s2,
    Permutation iteration metric_type_set ->
    get_distribution_metrics iteration (s1 ++ s2) =
    match get_distribution_metrics iteration s1,
          get_distribution_metrics iteration s2 with
    | Ok metrics1, Ok metrics2 => Ok (appended metrics1 metrics2)
    | Raise e, _ => Raise e
    | Ok _, Raise e => Raise e
    end.
Proof.
  intros iteration s1 s2 P.
  pose proof (metric_types_iterated iteration P) as I.
  destruct (walkable s1) eqn:W1, (walkable s2) eqn:W2.
  - assert (W : walkable (s1 ++ s2) = true) by now rewrite walkable_app, W1, W2.
    rewrite (walker_catalog _ _ P W), (walker_catalog _ _ P W1),
      (walker_catalog _ _ P W2).
    unfold appended. rewrite combine_map, map_map. apply f_equal.
    apply map_ext. intros t. simpl. now rewrite names_of_type_app.
  - rewrite (walker_catalog _ _ P W1), !(walker_result _ _ I),
      walkable_app, W1, W2. reflexivity.
  - rewrite !(walker_result _ _ I), W1, walkable_app, W1. reflexivity.
  - rewrite !(walker_result _ _ I), W1, walkable_app, W1. reflexivity.
Qed.

Lemma walker_of_concatenation_witness :
  get_distribution_metrics metric_type_set (example_schema ++ example_schema) =
  match get_distribution_metrics metric_type_set example_schema,
        get_distribution_metrics metric_type_set example_schema with
  | Ok metrics1, Ok metrics2 => Ok (appended metrics1 metrics2)
  | Raise e, _ => Raise e
  | Ok _, Raise e => Raise e
  end.
Proof.
  apply (walker_of_concatenation metric_type_set example_schema example_schema).
  apply Permutation_refl.
Defined.

Lemma filter_idempotent {A : Type} (keep : A -> bool) l :
  filter keep (filter keep l) = filter keep l.
Proof.
  induction l as [| x l IH]; simpl; [reflexivity |].
  destruct (keep x) eqn:E; simpl; [rewrite E |]; now rewrite ?IH.
Qed.

Lemma relevant_roots schema : filter is_root (relevant schema) = relevant schema.
Proof.
  unfold relevant. induction schema as [| f schema IH]; simpl; [reflexivity |].
  destruct (is_root f) eqn:E; simpl; [| exact IH].
  assert (E' : is_root (metric_types_only f) = true)
    by (destruct f as [n [fs |]]; exact E).
  now rewrite E', IH.
Qed.

Lemma relevant_fields schema :
  metric_type_fields (relevant schema) = metric_type_fields schema.
Proof.
  unfold metric_type_fields. rewrite relevant_roots. unfold relevant.
  induction (filter is_root schema) as [| f roots IH]; simpl; [reflexivity |].
  rewrite IH. f_equal.
  destruct f as [n [fs |]]; simpl; [apply filter_idempotent | reflexivity].
Qed.

Lemma relevant_walkable schema : walkable (relevant schema) = walkable schema.
Proof.
  unfold walkable. rewrite relevant_fields, relevant_roots. f_equal.
  unfold relevant.
  induction (filter is_root schema) as [| f roots IH]; simpl; [reflexivity |].
  rewrite IH. now destruct f as [n [fs |]].
Qed.

(** X5: the walker's result, catalog or [KeyError], is that of the schema
    with only its top-level fields named ["metrics"] and only their
    metric-type children: nothing else in the schema has any effect. *)
Theorem walker_reads_only_metric_types :
  forall iteration schema,
    Permutation iteration metric_type_set ->
    get_distribution_metrics iteration schema =
    get_distribution_metrics iteration (relevant schema).
Proof.
  intros iteration schema P.
  pose proof (metric_types_iterated iteration P) as I.
  destruct (walkable schema) eqn:W.
  - rewrite (walker_catalog _ _ P W).
    rewrite (walker_catalog iteration (relevant schema) P)
      by now rewrite relevant_walkable.
    apply f_equal. apply map_ext. intros t. unfold names_of_type.
    now rewrite relevant_fields.
  - now rewrite !(walker_result _ _ I), relevant_walkable, W.
Qed.

Lemma walker_reads_only_metric_types_witness :
  get_distribution_metrics metric_type_set example_schema =
  get_distribution_metrics metric_type_set (relevant example_schema).
Proof.
  apply (walker_reads_only_metric_types metric_type_set example_schema).
  apply Permutation_refl.
Defined.

(** X6: the set of metric types may be iterated in any order: the
    fragment built from the walker's catalog is the same, and so is the
    [KeyError] when the schema cannot be walked. *)
Theorem fragment_whatever_the_iteration :
  forall iteration iteration' schema,
    Permutation iteration metric_type_set ->
    Permutation iteration' metric_type_set ->
    match get_distribution_metrics iteration schema,
          get_distribution_metrics iteration' schema with
    | Ok metrics, Ok metrics' => get_metrics_sql metrics = get_metrics_sql metrics'
    | Raise e, Raise e' => e = e'
    | _, _ => False
    end.
Proof.
  intros iteration iteration' schema P P'.
  destruct (walkable schema) eqn:W.
  - rewrite (walker_catalog _ _ P W), (walker_catalog _ _ P' W).
    apply fragment_of_tuples, items_permutation, Permutation_map.
    now rewrite P, P'.
  - rewrite (walker_result _ _ (metric_types_iterated _ P)),
            (walker_result _ _ (metric_types_iterated _ P')), W.
    reflexivity.
Qed.

Lemma fragment_whatever_the_iteration_witness :
  match get_distribution_metrics metric_type_set example_schema,
        get_distribution_metrics
          [ "custom_distribution"; "timing_distribution"; "memory_distribution" ]
          example_schema with
  | Ok metrics, Ok metrics' => get_metrics_sql metrics = get_metrics_sql metrics'
  | Raise e, Raise e' => e = e'
  | _, _ => False
  end.
Proof.
  apply (fragment_whatever_the_iteration metric_type_set
           [ "custom_distribution"; "timing_distribution"; "memory_distribution" ]
           example_schema).
  - apply Permutation_refl.
  - unfold metric_type_set.
    apply Permutation_trans
      with [ "timing_distribution"; "custom_distribution"; "memory_distribution" ];
      [apply perm_swap | apply perm_skip, perm_swap].
Defined.

(** ** [main] of clients_daily_histogram_aggregates.py *)

Lemma walk_schema_catalog iteration schema :
  Permutation iteration metric_type_set ->
  walk_schema schema (empty_catalog iteration) =
  map (fun metric_type => (metric_type, names_of_type schema metric_type))
      iteration.
Proof.
  intros P.
  rewrite (dict_by_keys (names_of_type schema)
             (walk_schema schema (empty_catalog iteration)));
    rewrite keys_walk_schema, keys_empty_catalog.
  - reflexivity.
  - apply (Permutation_NoDup (Permutation_sym P)).
    unfold metric_type_set.
    repeat (constructor; [simpl; intuition discriminate |]). constructor.
  - intros k Hk.
    apply (getitem_walk_schema schema (empty_catalog iteration) k []).
    now apply getitem_empty_catalog.
Qed.

Lemma concat_nil_all {A : Type} (ls : list (list A)) :
  List.concat ls = [] -> Forall (fun l => l = []) ls.
Proof.
  induction ls as [| l ls IH]; simpl; intros H; constructor.
  - now apply app_eq_nil in H as [H _].
  - apply IH. now apply app_eq_nil in H as [_ H].
Qed.

(** The catalog lists no name exactly when the schema has none to find. *)
Lemma catalog_empty_iff iteration schema :
  Permutation iteration metric_type_set ->
  get_metrics_items
    (map (fun metric_type => (metric_type, names_of_type schema metric_type))
         iteration) = []
  <-> names_found schema = [].
Proof.
  intros P.
  pose proof (values_walk_schema schema (empty_catalog iteration)) as V.
  rewrite keys_empty_catalog, (walk_schema_catalog _ _ P) in V.
  specialize (V (metric_types_iterated _ P)).
  rewrite (concat_all_nil _ (values_empty_catalog iteration)) in V. simpl in V.
  rewrite items_empty_iff. unfold values in V. split; intros H.
  - apply Permutation_nil. rewrite <- V.
    rewrite concat_all_nil; [reflexivity |].
    apply Forall_forall. intros l Hl. apply in_map_iff in Hl as [e [<- He]].
    rewrite Forall_forall in H. now apply H.
  - rewrite H in V. apply Permutation_sym, Permutation_nil in V.
    apply concat_nil_all in V. rewrite Forall_forall in *.
    intros e He. apply V. now apply in_map.
Qed.

(** The three ways a run of [main] goes. *)
Lemma histogram_main_cases iteration get_schema render_main args :
  Permutation iteration metric_type_set ->
  HistogramMain.main iteration get_schema render_main args =
  let schema := get_schema (HistogramMain.source_table args) in
  if walkable schema then
    match names_found schema with
    | [] =>
        mkRun [ histogram_header args; "-- Empty query: no probes found!" ]
              (Some (SystemExit 1))
    | _ :: _ =>
        mkRun [ render_main
                  (HistogramMain.mkKwargs
                     (histogram_header args)
                     (HistogramMain.source_table args)
                     (histogram_submission_date args)
                     HistogramMain.ATTRIBUTES
                     (get_metrics_sql
                        (map (fun metric_type =>
                                (metric_type, names_of_type schema metric_type))
                             iteration))) ]
              None
    end
  else mkRun [] (Some (Propagated (KeyError "fields"))).
Proof.
  intros P. unfold HistogramMain.main. cbv zeta.
  fold (histogram_header args). fold (histogram_submission_date args).
  set (schema := get_schema (HistogramMain.source_table args)).
  rewrite (walker_result _ _ (metric_types_iterated _ P)).
  destruct (walkable schema); [| reflexivity].
  rewrite (walk_schema_catalog _ _ P), strip_fragment.
  pose proof (catalog_empty_iff iteration schema P) as C.
  rewrite <- get_metrics_sql_empty_items in C.
  destruct (String.eqb_spec
              (get_metrics_sql
                 (map (fun metric_type =>
                         (metric_type, names_of_type schema metric_type))
                      iteration)) EmptyString) as [E | N].
  - now rewrite (proj1 C E).
  - destruct (names_found schema) as [| n ns]; [| reflexivity].
    exfalso. now apply N, C.
Qed.

(** X7: [main] ends with [sys.exit(1)] exactly when the schema can be
    walked and has no name under a metric type; it has then printed the
    header and the diagnostic, and has not called [render_main]. *)
Theorem histogram_main_exits :
  forall iteration get_schema render_main args,
    Permutation iteration metric_type_set ->
    let schema := get_schema (HistogramMain.source_table args) in
    let run := HistogramMain.main iteration get_schema render_main args in
    (ended_by run = Some (SystemExit 1) <->
     walkable schema = true /\ names_found schema = []) /\
    (ended_by run = Some (SystemExit 1) ->
     stdout run =
     [ histogram_header args; "-- Empty query: no probes found!" ]).
Proof.
  intros iteration get_schema render_main args P schema run. subst run.
  rewrite (histogram_main_cases _ _ _ _ P). cbv zeta. fold schema.
  destruct (walkable schema); [| simpl; intuition discriminate].
  destruct (names_found schema); simpl; intuition discriminate.
Qed.

Lemma histogram_main_exits_witness :
  let args := HistogramMain.mkNamespace false "org_mozilla_fenix_stable.metrics_v1" in
  let schema := (fun _ : string => empty_fields) (HistogramMain.source_table args) in
  let run := HistogramMain.main metric_type_set (fun _ => empty_fields)
               HistogramMain.kw_histograms args in
  (ended_by run = Some (SystemExit 1) <->
   walkable schema = true /\ names_found schema = []) /\
  (ended_by run = Some (SystemExit 1) ->
   stdout run =
   [ histogram_header args; "-- Empty query: no probes found!" ]).
Proof.
  apply (histogram_main_exits metric_type_set (fun _ => empty_fields)
           HistogramMain.kw_histograms).
  apply Permutation_refl.
Defined.

(** X8: [main] returns normally exactly when the schema can be walked and
    has a name under a metric type; it has then printed one string, what
    [render_main] makes of the header, the source table, the submission
    date, [ATTRIBUTES] and the fragment of the walker's catalog, and that
    fragment is not empty. *)
Theorem histogram_main_renders :
  forall iteration get_schema render_main args,
    Permutation iteration metric_type_set ->
    let schema := get_schema (HistogramMain.source_table args) in
    let run := HistogramMain.main iteration get_schema render_main args in
    (ended_by run = None <->
     walkable schema = true /\ names_found schema <> []) /\
    (ended_by run = None ->
     exists distributions,
       get_distribution_metrics iteration schema = Ok distributions /\
       get_metrics_sql distributions <> EmptyString /\
       stdout run =
       [ render_main
           (HistogramMain.mkKwargs
              (histogram_header args)
              (HistogramMain.source_table args)
              (histogram_submission_date args)
              HistogramMain.ATTRIBUTES
              (get_metrics_sql distributions)) ]).
Proof.
  intros iteration get_schema render_main args P schema run. subst run.
  rewrite (histogram_main_cases _ _ _ _ P). cbv zeta. fold schema.
  destruct (walkable schema) eqn:W; [| simpl; intuition discriminate].
  destruct (names_found schema) as [| n ns] eqn:F; simpl.
  - split; [| discriminate]. split; [discriminate | intros [_ H]; now contradict H].
  - split; [split; [intros _; split; [reflexivity | discriminate] | reflexivity] |].
    intros _. eexists. split; [apply (walker_catalog _ _ P W) |].
    split; [| reflexivity].
    rewrite get_metrics_sql_empty_items, (catalog_empty_iff _ _ P), F.
    discriminate.
Qed.

Lemma histogram_main_renders_witness :
  let args := HistogramMain.mkNamespace true "org_mozilla_fenix_stable.metrics_v1" in
  let schema := (fun _ : string => example_schema) (HistogramMain.source_table args) in
  let run := HistogramMain.main metric_type_set (fun _ => example_schema)
               HistogramMain.kw_histograms args in
  (ended_by run = None <->
   walkable schema = true /\ names_found schema <> []) /\
  (ended_by run = None ->
   exists distributions,
     get_distribution_metrics metric_type_set schema = Ok distributions /\
     get_metrics_sql distributions <> EmptyString /\
     stdout run =
     [ HistogramMain.kw_histograms
         (HistogramMain.mkKwargs
            (histogram_header args)
            (HistogramMain.source_table args)
            (histogram_submission_date args)
            HistogramMain.ATTRIBUTES
            (get_metrics_sql distributions)) ]).
Proof.
  apply (histogram_main_renders metric_type_set (fun _ => example_schema)
           HistogramMain.kw_histograms).
  apply Permutation_refl.
Defined.

(** X9: [main] is left by the walker's [KeyError] exactly when the schema
    cannot be walked, and has then printed nothing. *)
Theorem histogram_main_key_error :
  forall iteration get_schema render_main args,
    Permutation iteration metric_type_set ->
    let schema := get_schema (HistogramMain.source_table args) in
    let run := HistogramMain.main iteration get_schema render_main args in
    (ended_by run = Some (Propagated (KeyError "fields")) <->
     walkable schema = false) /\
    (walkable schema = false -> stdout run = []).
Proof.
  intros iteration get_schema render_main args P schema run. subst run.
  rewrite (histogram_main_cases _ _ _ _ P). cbv zeta. fold schema.
  destruct (walkable schema).
  - destruct (names_found schema); simpl; intuition discriminate.
  - simpl. intuition discriminate.
Qed.

Lemma histogram_main_key_error_witness :
  let args := HistogramMain.mkNamespace false "org_mozilla_fenix_stable.metrics_v1" in
  let schema :=
    (fun _ : string => partly_without_fields) (HistogramMain.source_table args) in
  let run := HistogramMain.main metric_type_set (fun _ => partly_without_fields)
               HistogramMain.kw_histograms args in
  (ended_by run = Some (Propagated (KeyError "fields")) <->
   walkable schema = false) /\
  (walkable schema = false -> stdout run = []).
Proof.
  apply (histogram_main_key_error metric_type_set (fun _ => partly_without_fields)
           HistogramMain.kw_histograms).
  apply Permutation_refl.
Defined.

(** ** More on [attribute_combinations] *)

Lemma combinations_all {A : Type} (pool : list A) :
  combinations pool (List.length pool) = [ pool ].
Proof.
  induction pool as [| x pool IH]; [reflexivity |].
  cbn [List.length combinations].
  now rewrite IH, combinations_beyond by lia.
Qed.

Lemma groupings_head attributes :
  exists rest, groupings attributes = attributes :: rest.
Proof.
  unfold groupings. rewrite Nat.add_1_r, reversed_range_S. cbn [flat_map].
  rewrite combinations_all. eexists. reflexivity.
Qed.

Lemma emission_strongly_sorted attributes :
  NoDup attributes ->
  StronglySorted
    (fun a b => emitted_before (included_indices a) (included_indices b))
    (attribute_combinations attributes).
Proof.
  intros Hl. apply StronglySorted_map. rewrite (included_emitted attributes Hl).
  apply StronglySorted_filter, index_groupings_sorted.
Qed.

Lemma included_length attributes g :
  NoDup attributes -> In g (groupings attributes) ->
  List.length (included_indices (select_expr attributes g)) = List.length g.
Proof.
  intros Hl Hg. rewrite groupings_positions in Hg.
  apply in_map_iff in Hg as [t [<- Ht]].
  apply index_groupings_shape in Ht as [Hs Hr].
  rewrite (included_pick attributes t Hl Hs Hr). unfold pick.
  now rewrite length_map.
Qed.

Lemma StronglySorted_after {A : Type} (R : A -> A -> Prop) l1 x l2 :
  StronglySorted R (l1 ++ x :: l2) -> Forall (R x) l2.
Proof.
  induction l1 as [| y l1 IH]; simpl; intros H;
    apply StronglySorted_inv in H as [H F]; auto.
Qed.

Lemma select_expr_same_members attributes g g' :
  (forall a, In a attributes -> (In a g <-> In a g')) ->
  select_expr attributes g = select_expr attributes g'.
Proof.
  intros H. unfold select_expr. apply map_ext_in. intros a Ha. f_equal.
  apply eq_true_iff_eq. rewrite !contains_In. now apply H.
Qed.

(** X10: with pairwise distinct attributes that have ["channel"] and
    ["app_version"] among them, the first combination emitted flags every
    attribute and the last one flags those two alone. *)
Theorem attribute_combinations_first_last :
  forall attributes,
    NoDup attributes ->
    In "channel" attributes ->
    In "app_version" attributes ->
    hd_error (attribute_combinations attributes)
      = Some (map (fun a => (a, true)) attributes) /\
    last (attribute_combinations attributes) []
      = map (fun a => (a, String.eqb a "channel" || String.eqb a "app_version"))
            attributes.
Proof.
  intros attributes Hl Hc Ha.
  assert (Hreq : incl required attributes)
    by (intros r [<- | [<- | []]]; assumption).
  split.
  - rewrite attribute_combinations_groupings.
    destruct (groupings_head attributes) as [rest ->]. cbn [filter].
    rewrite (proj2 (has_required_incl attributes) Hreq). cbn [map hd_error].
    f_equal. unfold select_expr. apply map_ext_in. intros a Hin. f_equal.
    now apply contains_In.
  - assert (T : map (fun a => (a, String.eqb a "channel" || String.eqb a "app_version"))
                    attributes = select_expr attributes required).
    { unfold select_expr. apply map_ext. intros a. unfold contains, required.
      simpl. now rewrite orb_false_r. }
    rewrite T. clear T.
    destruct (select_expr_subset attributes required) as [g0 [Hg0 [M0 E0]]].
    assert (R0 : has_required g0 = true).
    { apply has_required_incl. intros r Hr. apply M0. auto. }
    assert (L0 : List.length g0 <= 2).
    { apply (@NoDup_incl_length _ g0 required).
      - pose proof (groupings_subseqs attributes) as P.
        apply (Permutation_in _ P) in Hg0.
        clear - Hg0 Hl. revert g0 Hg0.
        induction attributes as [| x l IH]; simpl; intros g Hg.
        + destruct Hg as [<- | []]. constructor.
        + apply NoDup_cons_iff in Hl as [Hx Hl].
          apply in_app_iff in Hg as [Hg | Hg]; [| now apply IH].
          apply in_map_iff in Hg as [g' [<- Hg']]. constructor; [| now apply IH].
          intros Hin. apply Hx. now apply (subseqs_incl l g').
      - intros a Hin. now apply M0. }
    assert (In0 : In (select_expr attributes required)
                     (attribute_combinations attributes)).
    { apply emitted_grouping. now exists g0. }
    apply in_split in In0 as [pre [post E]]. rewrite E.
    destruct post as [| e post]; [apply last_last |].
    exfalso.
    pose proof (emission_strongly_sorted attributes Hl) as S.
    rewrite E in S. apply StronglySorted_after in S.
    apply Forall_inv in S.
    assert (Ine : In e (attribute_combinations attributes))
      by (rewrite E; apply in_app_iff; right; right; now left).
    apply emitted_grouping in Ine as [g [Hg [Rg ->]]].
    rewrite E0 in S. unfold emitted_before in S.
    rewrite !(included_length attributes _ Hl) in S by assumption.
    apply has_required_incl in Rg.
    pose proof (NoDup_incl_length required_distinct Rg) as L. simpl in L.
    destruct S as [S | [S1 S2]]; [lia |].
    assert (Ig : incl g required).
    { apply (NoDup_length_incl required_distinct); [simpl; lia | assumption]. }
    rewrite (select_expr_same_members attributes g0 g) in S2.
    + now apply lex_lt_irrefl in S2.
    + intros a Hin. rewrite M0. split.
      * intros [_ Hr]. now apply Rg.
      * intros Hg'. split; [assumption | now apply Ig].
Qed.

Lemma attribute_combinations_first_last_witness :
  hd_error (attribute_combinations glean_attributes)
    = Some (map (fun a => (a, true)) glean_attributes) /\
  last (attribute_combinations glean_attributes) []
    = map (fun a => (a, String.eqb a "channel" || String.eqb a "app_version"))
          glean_attributes.
Proof.
  apply (attribute_combinations_first_last glean_attributes).
  - apply glean_attributes_distinct.
  - simpl. tauto.
  - simpl. tauto.
Defined.

(** X11: every emitted combination names all the attributes, in their
    order, and gives one flag to an attribute however often it is named. *)
Theorem attribute_combinations_cover :
  forall attributes combination,
    In combination (attribute_combinations attributes) ->
    map fst combination = attributes /\
    (forall a b b',
        In (a, b) combination -> In (a, b') combination -> b = b').
Proof.
  intros attributes combination H.
  apply emitted_grouping in H as [g [_ [_ ->]]]. unfold select_expr. split.
  - rewrite map_map. simpl. apply map_id.
  - intros a b b' Hb Hb'.
    apply in_map_iff in Hb as [x [Ex _]]. apply in_map_iff in Hb' as [y [Ey _]].
    injection Ex as -> <-. injection Ey as -> <-. reflexivity.
Qed.

Lemma attribute_combinations_cover_witness :
  map fst [ ("channel", true); ("app_version", true); ("app_version", true);
            ("os", false) ] = repeated_attributes /\
  (forall a b b',
      In (a, b) [ ("channel", true); ("app_version", true); ("app_version", true);
                  ("os", false) ] ->
      In (a, b') [ ("channel", true); ("app_version", true); ("app_version", true);
                   ("os", false) ] ->
      b = b').
Proof.
  apply (attribute_combinations_cover repeated_attributes).
  vm_compute. right. left. reflexivity.
Defined.



(** ** [main] of probe_counts.py *)

Lemma chosen_attributes_distinct args :
  NoDup (ProbeCountsMain.attributes (chosen_variables args)).
Proof.
  unfold chosen_variables. destruct (ProbeCountsMain.ping_type args); simpl;
    repeat (constructor; [simpl; intuition discriminate |]); constructor.
Qed.

Lemma chosen_attributes_required args :
  incl required (ProbeCountsMain.attributes (chosen_variables args)).
Proof.
  unfold chosen_variables.
  destruct (ProbeCountsMain.ping_type args); intros r [<- | [<- | []]];
    simpl; tauto.
Qed.

(** X13: [main] raises [ValueError] exactly for histograms of the
    telemetry family, and then prints nothing; in every other run it
    prints one string, the reformatted rendering of the combinations of
    the chosen family's attributes, with [is_scalar] the negation of
    [--histogram].  The attributes of either family are pairwise distinct
    and have both required ones, so that the combinations given to the
    template are emitted in order and are [2 ^ (n - 2)]. *)
Theorem probe_counts_main_runs :
  forall render reformat args,
    let run := ProbeCountsMain.main render reformat args in
    let attributes := ProbeCountsMain.attributes (chosen_variables args) in
    let error := ValueError "histograms not supported for telemetry" in
    (ended_by run = Some error <->
     ProbeCountsMain.ping_type args = ProbeCountsMain.telemetry /\
     ProbeCountsMain.histogram args = true) /\
    (ended_by run = Some error -> stdout run = []) /\
    (ended_by run <> Some error ->
     ended_by run = None /\
     exists kwargs,
       stdout run = [ reformat (render (attribute_combinations attributes) kwargs) ] /\
       ProbeCountsMain.kw_is_scalar kwargs = negb (ProbeCountsMain.histogram args) /\
       ProbeCountsMain.kw_source_table kwargs = ProbeCountsMain.source_table args) /\
    emission_ordered attributes /\
    List.length (attribute_combinations attributes)
      = 2 ^ (List.length attributes - 2).
Proof.
  intros render reformat args run attributes error.
  split; [| split; [| split; [| split]]].
  - subst run error. unfold ProbeCountsMain.main.
    destruct (ProbeCountsMain.ping_type args), (ProbeCountsMain.histogram args);
      simpl; intuition discriminate.
  - subst run error. unfold ProbeCountsMain.main.
    destruct (ProbeCountsMain.ping_type args), (ProbeCountsMain.histogram args);
      simpl; intros H; try discriminate; reflexivity.
  - subst run error attributes. unfold ProbeCountsMain.main, chosen_variables.
    destruct (ProbeCountsMain.ping_type args), (ProbeCountsMain.histogram args);
      simpl; intros H; try (now contradict H);
      (split; [reflexivity |]); eexists; repeat split.
  - intros i j c1 c2 Hij H1 H2.
    exact (StronglySorted_nth_error _ _
             (emission_strongly_sorted attributes (chosen_attributes_distinct args))
             i j c1 c2 Hij H1 H2).
  - rewrite length_attribute_combinations. unfold has_required.
    now rewrite (count_supersets attributes required
                   (chosen_attributes_distinct args) required_distinct
                   (chosen_attributes_required args)).
Qed.

(** ** The walker stops at the names *)

Lemma cut_is_root f : is_root (with_children (with_children as_leaf) f) = is_root f.
Proof. now destruct f as [n [fs |]]. Qed.

Lemma cut_roots schema :
  filter is_root (cut_below_names schema) =
  map (with_children (with_children as_leaf)) (filter is_root schema).
Proof.
  unfold cut_below_names. induction schema as [| f schema IH]; simpl; [reflexivity |].
  rewrite cut_is_root. destruct (is_root f); simpl; now rewrite IH.
Qed.

Lemma cut_metric_types fs :
  filter is_metric_type (map (with_children as_leaf) fs) =
  map (with_children as_leaf) (filter is_metric_type fs).
Proof.
  induction fs as [| f fs IH]; simpl; [reflexivity |].
  assert (E : is_metric_type (with_children as_leaf f) = is_metric_type f)
    by now destruct f as [n [gs |]].
  rewrite E. destruct (is_metric_type f); simpl; now rewrite IH.
Qed.

Lemma cut_fields schema :
  metric_type_fields (cut_below_names schema) =
  map (with_children as_leaf) (metric_type_fields schema).
Proof.
  unfold metric_type_fields. rewrite cut_roots.
  induction (filter is_root schema) as [| f roots IH]; simpl; [reflexivity |].
  rewrite map_app, IH. f_equal.
  destruct f as [n [fs |]]; simpl; [apply cut_metric_types | reflexivity].
Qed.

Lemma forallb_map {A B : Type} (f : B -> bool) (g : A -> B) l :
  forallb f (map g l) = forallb (fun x => f (g x)) l.
Proof. induction l as [| x l IH]; simpl; [reflexivity | now rewrite IH]. Qed.

Lemma cut_walkable schema : walkable (cut_below_names schema) = walkable schema.
Proof.
  unfold walkable. rewrite cut_fields, cut_roots, !forallb_map. f_equal.
  - apply forallb_ext_in. intros f _. now destruct f as [n [fs |]].
  - apply forallb_ext_in. intros f _. now destruct f as [n [fs |]].
Qed.

Lemma cut_names schema metric_type :
  names_of_type (cut_below_names schema) metric_type =
  names_of_type schema metric_type.
Proof.
  unfold names_of_type. rewrite cut_fields.
  induction (metric_type_fields schema) as [| f fs IH]; simpl; [reflexivity |].
  assert (E : name (with_children as_leaf f) = name f) by now destruct f as [n [gs |]].
  rewrite E. destruct (String.eqb (name f) metric_type); simpl; [| exact IH].
  rewrite IH. f_equal. destruct f as [n [gs |]]; simpl; [| reflexivity].
  rewrite map_map. apply map_ext. intros g. now destruct g.
Qed.

(** X14: the walker reads nothing below the names it collects: making
    every field at that depth a leaf changes neither the catalog nor the
    [KeyError]. *)
Theorem walker_stops_at_names :
  forall iteration schema,
    Permutation iteration metric_type_set ->
    get_distribution_metrics iteration (cut_below_names schema) =
    get_distribution_metrics iteration schema.
Proof.
  intros iteration schema P.
  rewrite !(walker_result _ _ (metric_types_iterated _ P)), cut_walkable.
  destruct (walkable schema); [| reflexivity].
  rewrite !(walk_schema_catalog _ _ P). apply f_equal, map_ext.
  intros t. now rewrite cut_names.
Qed.

Lemma walker_stops_at_names_witness :
  get_distribution_metrics metric_type_set
    (cut_below_names
       [ mkField "metrics"
           (Some [ mkField "timing_distribution"
                     (Some [ mkField "load_time"
                               (Some [ mkField "sum" None;
                                       mkField "values" (Some []) ]) ]) ]) ]) =
  get_distribution_metrics metric_type_set
    [ mkField "metrics"
        (Some [ mkField "timing_distribution"
                  (Some [ mkField "load_time"
                            (Some [ mkField "sum" None;
                                    mkField "values" (Some []) ]) ]) ]) ].
Proof.
  apply walker_stops_at_names. apply Permutation_refl.
Defined.

(** X15: a run of [main] of clients_daily_histogram_aggregates.py is the
    same whatever order the set of metric types is iterated in: what is
    printed and what ends the run do not depend on it. *)
Theorem histogram_main_whatever_the_iteration :
  forall iteration iteration' get_schema render_main args,
    Permutation iteration metric_type_set ->
    Permutation iteration' metric_type_set ->
    HistogramMain.main iteration get_schema render_main args =
    HistogramMain.main iteration' get_schema render_main args.
Proof.
  intros iteration iteration' get_schema render_main args P P'.
  rewrite (histogram_main_cases _ _ _ _ P), (histogram_main_cases _ _ _ _ P').
  cbv zeta. set (schema := get_schema (HistogramMain.source_table args)).
  destruct (walkable schema); [| reflexivity].
  destruct (names_found schema); [reflexivity |].
  rewrite (fragment_of_tuples
             (map (fun metric_type => (metric_type, names_of_type schema metric_type))
                  iteration)
             (map (fun metric_type => (metric_type, names_of_type schema metric_type))
                  iteration')); [reflexivity |].
  apply items_permutation, Permutation_map. now rewrite P, P'.
Qed.

Lemma histogram_main_whatever_the_iteration_witness :
  HistogramMain.main metric_type_set (fun _ => example_schema)
    HistogramMain.kw_histograms
    (HistogramMain.mkNamespace false "org_mozilla_fenix_stable.metrics_v1") =
  HistogramMain.main
    [ "custom_distribution"; "timing_distribution"; "memory_distribution" ]
    (fun _ => example_schema) HistogramMain.kw_histograms
    (HistogramMain.mkNamespace false "org_mozilla_fenix_stable.metrics_v1").
Proof.
  apply histogram_main_whatever_the_iteration.
  - apply Permutation_refl.
  - unfold metric_type_set.
    apply Permutation_trans
      with [ "timing_distribution"; "custom_distribution"; "memory_distribution" ];
      [apply perm_swap | apply perm_skip, perm_swap].
Defined.
